(** * TTL reconciler for finished TaskRuns and the Task specification validator

    A shallow embedding of two Go files of the pipeline repository:

    - [hack/tools.go], package [taskrun]: the controller that deletes a
      finished TaskRun once its TTL has run out ([AddTaskRun],
      [UpdateTaskRun], [processTaskRunExpired], [processTrTTL],
      [getFinishAndExpireTime], [trTimeLeft], [taskRunFinishTime],
      [taskRunCleanup]);
    - the [v1alpha2] Task validation file: [TaskSpec.Validate],
      [ValidateVolumes], [validateSteps], [validateParameterTypes],
      [validateParameterVariables], [validateArrayUsage],
      [validateVariables] and the three one-line wrappers around the
      [substitution] package.

    Go values are modelled as the code has them: [time.Time] as the number of
    nanoseconds since the zero instant, [time.Duration] as an [int64]
    number of nanoseconds, string-typed enumerations as strings,
    [map[string]struct{}] as a finite set of strings, [error] and
    [*apis.FieldError] as options ([None] is [nil]).  The clock, the work
    queue and the API server are threaded through a state record. *)

From Stdlib Require Import ZArith List String Ascii Bool Lia DecimalString.
From stdpp Require Import base gmap strings.
Import ListNotations.

Local Open Scope string_scope.
Local Open Scope Z_scope.

(* ================================================================== *)
(** * Part I: the TTL reconciler ([hack/tools.go], package [taskrun])  *)
(* ================================================================== *)

Module TTL.

(** ** Time *)

(** [time.Time], as an instant: nanoseconds since the zero time instant
    (January 1, year 1, 00:00:00 UTC).  The location and the monotonic
    reading of a Go [Time] play no part in [Add], [Sub], [After] and
    [IsZero] once [UTC()] has been applied, which every use below does. *)
Definition Time := Z.

(** [time.Duration]: an [int64] count of nanoseconds. *)
Definition Duration := Z.

Definition maxDuration : Duration := 2 ^ 63 - 1.
Definition minDuration : Duration := - 2 ^ 63.

Definition Second : Duration := 1000000000.

(** [Time.IsZero]. *)
Definition Time_IsZero (t : Time) : bool := t =? 0.

(** [Time.UTC]: the same instant, with the location set to UTC. *)
Definition Time_UTC (t : Time) : Time := t.

(** [Time.Add]. *)
Definition Time_Add (t : Time) (d : Duration) : Time := t + d.

(** [Time.After]. *)
Definition Time_After (t u : Time) : bool := u <? t.

(** [Time.Sub]: the duration [t - u]; when the result exceeds the largest
    (or smallest) value a [Duration] can hold, the largest (or smallest)
    duration is returned. *)
Definition Time_Sub (t u : Time) : Duration :=
  let d := t - u in
  if maxDuration <? d then maxDuration
  else if d <? minDuration then minDuration
  else d.

(** ** Objects *)

(** [apis.ConditionType] and [corev1.ConditionStatus] are string types. *)
Definition ConditionSucceeded : string := "Succeeded".
Definition ConditionTrue : string := "True".
Definition ConditionFalse : string := "False".
Definition ConditionUnknown : string := "Unknown".

(** [apis.Condition], with the fields the reconciler reads.
    [LastTransitionTime] is an [apis.VolatileTime], a wrapper around a time
    ([Inner]). *)
Record Condition := mkCondition {
  CondType : string;
  CondStatus : string;
  LastTransitionTime : Time
}.

(** [metav1.OwnerReference]. *)
Record OwnerReference := mkOwnerReference {
  RefKind : string;
  RefName : string
}.

(** [v1alpha1.TaskRun], with the fields the reconciler reads:
    [ObjectMeta] (namespace, name, UID, deletion timestamp, owner
    references), [Spec.ExpirationSecondsTTL] (a [*metav1.Duration]) and
    [Status.Conditions]. *)
Record TaskRun := mkTaskRun {
  Namespace : string;
  Name : string;
  UID : string;
  DeletionTimestamp : option Time;
  OwnerReferences : list OwnerReference;
  ExpirationSecondsTTL : option Duration;
  Conditions : list Condition
}.

(** The two methods of [*TaskRun] the reconciler calls.  They are declared
    next to the type, outside the file embedded here, so the reconciler is
    parameterised by them. *)
Class TaskRunMethods := {
  IsDone : TaskRun -> bool;
  HasPipelineRunOwnerReference : TaskRun -> bool
}.

(** A terminal condition: a condition record that says the run succeeded or
    failed, not one whose status is unknown.  This is the test of the loop
    in [taskRunFinishTime]. *)
Definition isTerminal (con : Condition) : bool :=
  String.eqb (CondType con) ConditionSucceeded
  && negb (String.eqb (CondStatus con) ConditionUnknown).

(** Modelled from the spec: [IsDone], missing from the sources.  A run is
    done when it has reached a terminal condition (succeeded or failed, not
    unknown). *)
Definition IsDone_spec (tr : TaskRun) : bool :=
  existsb isTerminal (Conditions tr).

(** Modelled from the spec: the kind of the parent aggregate run in an
    owner reference, a constant missing from the sources. *)
Definition pipelineRunKind : string := "PipelineRun".

(** Modelled from the spec: [HasPipelineRunOwnerReference], missing from the
    sources.  A run is parent-owned when it carries an owner reference to a
    parent aggregate run. *)
Definition HasPipelineRunOwnerReference_spec (tr : TaskRun) : bool :=
  existsb (fun ref => String.eqb (RefKind ref) pipelineRunKind)
          (OwnerReferences tr).

(** The two methods as the spec describes them; the examples run with
    these. *)
Definition specMethods : TaskRunMethods :=
  {| IsDone := IsDone_spec;
     HasPipelineRunOwnerReference := HasPipelineRunOwnerReference_spec |}.

(** ** Errors *)

(** [metav1.StatusReason] of an API error. *)
Inductive StatusReason :=
| StatusReasonNotFound
| StatusReasonConflict
| StatusReasonTimeout
| StatusReasonInternalError.

(** The values of Go's [error] this package sees: the three that it builds
    with [fmt.Errorf], each carrying the namespace and name it formats into
    the message, and the status errors of the API client. *)
Inductive Error :=
| ErrShouldNotBeCleanedUp (ns name : string)
    (* "TaskRun %s/%s should not be cleaned up" *)
| ErrFinishTimeUnset (ns name : string)
    (* "unable to find the time when the taskRun %s/%s succeeded" *)
| ErrStatusNotFound (ns name : string)
    (* "unable to find the status of the succeeded taskRun %s/%s" *)
| StatusError (reason : StatusReason) (message : string).

(** [errors.IsNotFound].  It is false on [nil]. *)
Definition IsNotFound (err : option Error) : bool :=
  match err with
  | Some (StatusError StatusReasonNotFound _) => true
  | _ => false
  end.

(** ** The collaborators: clock, work queue, API server *)

(** [metav1.DeletionPropagation]. *)
Inductive DeletionPropagation :=
| DeletePropagationOrphan
| DeletePropagationBackground
| DeletePropagationForeground.

(** [metav1.Preconditions] and [metav1.DeleteOptions]; pointer fields are
    options. *)
Record Preconditions := mkPreconditions {
  PreUID : option string
}.

Record DeleteOptions := mkDeleteOptions {
  PropagationPolicy : option DeletionPropagation;
  DeletePreconditions : option Preconditions
}.

(** The calls the reconciler makes to the work queue and to the API
    server.  The queue is keyed by namespace and name. *)
Inductive Call :=
| CallEnqueue (ns name : string)
| CallEnqueueAfter (ns name : string) (after : Duration)
| CallGet (ns name : string)
| CallDelete (ns name : string) (options : DeleteOptions).

(** What the reconciler runs against: the injected clock (its successive
    readings), the objects the API server holds, the failures the server
    answers with instead of serving a request, and the log of the calls
    made so far, oldest first. *)
Record World := mkWorld {
  clock : nat -> Time;
  ticks : nat;
  objects : list TaskRun;
  getFault : string -> string -> option Error;
  deleteFault : string -> string -> option Error;
  calls : list Call
}.

(** A small state monad over the world. *)
Definition M (A : Type) : Type := World -> A * World.

Definition ret {A} (a : A) : M A := fun w => (a, w).

Definition bind {A B} (m : M A) (k : A -> M B) : M B :=
  fun w => let (a, w') := m w in k a w'.

Declare Scope ttl_scope.
Delimit Scope ttl_scope with ttl.
Notation "x <- m ;; k" := (bind m (fun x => k))
  (at level 100, m at next level, right associativity) : ttl_scope.
Notation "m ;; k" := (bind m (fun _ => k))
  (at level 100, right associativity) : ttl_scope.

Local Open Scope ttl_scope.

(** The world after one more call, and after one more reading of the
    clock. *)
Definition logged (c : Call) (w : World) : World :=
  mkWorld (clock w) (ticks w) (objects w)
          (getFault w) (deleteFault w) (calls w ++ [c]).

Definition ticked (w : World) : World :=
  mkWorld (clock w) (S (ticks w)) (objects w)
          (getFault w) (deleteFault w) (calls w).

Definition record (c : Call) : M unit := fun w => (tt, logged c w).

(** [tc.clock.Now()]: the next reading of the injected clock. *)
Definition clockNow : M Time := fun w => (clock w (ticks w), ticked w).

(** [controller.NewImpl(...).Enqueue(tr)] and [.EnqueueAfter(tr, d)]: the
    key of the object goes to the work queue, at once or after the delay. *)
Definition Enqueue (tr : TaskRun) : M unit :=
  record (CallEnqueue (Namespace tr) (Name tr)).

Definition EnqueueAfter (tr : TaskRun) (after : Duration) : M unit :=
  record (CallEnqueueAfter (Namespace tr) (Name tr) after).

Definition sameKey (ns name : string) (tr : TaskRun) : bool :=
  String.eqb (Namespace tr) ns && String.eqb (Name tr) name.

Definition lookupObject (ns name : string) (objs : list TaskRun)
  : option TaskRun :=
  find (sameKey ns name) objs.

Definition notFound (name : string) : Error :=
  StatusError StatusReasonNotFound name.

Definition conflict (name : string) : Error :=
  StatusError StatusReasonConflict name.

(** Modelled from the spec: the answer of the object store client to
    [Get(namespace, name)]: the object, a not-found error, or another
    error.  The client is an external collaborator. *)
Definition serveGet (ns name : string) (w : World) : TaskRun + Error :=
  match getFault w ns name with
  | Some err => inr err
  | None =>
      match lookupObject ns name (objects w) with
      | Some tr => inl tr
      | None => inr (notFound name)
      end
  end.

(** [tc.PipelineClientSet.TektonV1alpha1().TaskRuns(ns).Get(name, ...)]. *)
Definition Get (ns name : string) : M (TaskRun + Error) :=
  record (CallGet ns name) ;;
  fun w => (serveGet ns name w, w).

(** Modelled from the spec: the UID precondition of a delete holds on the
    stored object. *)
Definition uidMatches (options : DeleteOptions) (tr : TaskRun) : bool :=
  match DeletePreconditions options with
  | Some pre =>
      match PreUID pre with
      | Some uid => String.eqb uid (UID tr)
      | None => true
      end
  | None => true
  end.

(** The world without the object of that key. *)
Definition removed (ns name : string) (w : World) : World :=
  mkWorld (clock w) (ticks w)
          (List.filter (fun o => negb (sameKey ns name o)) (objects w))
          (getFault w) (deleteFault w) (calls w).

(** Modelled from the spec: the answer of the object store client to
    [Delete(namespace, name, options)]: success, not-found,
    precondition-failed or another error; the object is removed only when
    the UID precondition matches the stored object. *)
Definition serveDelete (ns name : string) (options : DeleteOptions)
  (w : World) : option Error * World :=
  match deleteFault w ns name with
  | Some err => (Some err, w)
  | None =>
      match lookupObject ns name (objects w) with
      | None => (Some (notFound name), w)
      | Some tr =>
          if uidMatches options tr
          then (None, removed ns name w)
          else (Some (conflict name), w)
      end
  end.

(** [tc.PipelineClientSet.TektonV1alpha1().TaskRuns(ns).Delete(name,
    options)]. *)
Definition Delete (ns name : string) (options : DeleteOptions)
  : M (option Error) :=
  record (CallDelete ns name options) ;;
  serveDelete ns name options.

(** ** The reconciler *)

(** [p != nil] on a pointer field. *)
Definition notNil {A} (p : option A) : bool :=
  match p with
  | Some _ => true
  | None => false
  end.

Section Reconciler.

Context `{TaskRunMethods}.

(** [taskRunCleanup] checks whether a TaskRun has succeeded or failed and
    has a TTL set. *)
Definition taskRunCleanup (tr : TaskRun) : bool :=
  notNil (ExpirationSecondsTTL tr)
  && IsDone tr
  && negb (HasPipelineRunOwnerReference tr).

(** The test that guards every use of [taskRunCleanup]
    ([tr.DeletionTimestamp == nil && taskRunCleanup(tr)] in [AddTaskRun] and
    [UpdateTaskRun], its negation in [processTrTTL]): the run is not being
    deleted and needs cleanup. *)
Definition cleanupEligible (tr : TaskRun) : bool :=
  negb (notNil (DeletionTimestamp tr)) && taskRunCleanup tr.

(** [taskRunFinishTime] takes an already succeeded taskRun and returns the
    time it finishes. *)
Fixpoint finishTimeIn (ns name : string) (cons : list Condition)
  : Time + Error :=
  match cons with
  | [] => inr (ErrStatusNotFound ns name)
  | con :: rest =>
      if String.eqb (CondType con) ConditionSucceeded
         && negb (String.eqb (CondStatus con) ConditionUnknown)
      then
        let finishAt := LastTransitionTime con in
        if Time_IsZero finishAt
        then inr (ErrFinishTimeUnset ns name)
        else inl (LastTransitionTime con)
      else finishTimeIn ns name rest
  end.

Definition taskRunFinishTime (tr : TaskRun) : Time + Error :=
  finishTimeIn (Namespace tr) (Name tr) (Conditions tr).

(** The TTL behind the pointer [tr.Spec.ExpirationSecondsTTL].  It is read
    only after [taskRunCleanup] has found the pointer set. *)
Definition ttlOf (tr : TaskRun) : Duration :=
  match ExpirationSecondsTTL tr with
  | Some d => d
  | None => 0
  end.

Definition getFinishAndExpireTime (tr : TaskRun) : (Time * Time) + Error :=
  if negb (taskRunCleanup tr)
  then inr (ErrShouldNotBeCleanedUp (Namespace tr) (Name tr))
  else
    match taskRunFinishTime tr with
    | inr err => inr err
    | inl finishAt =>
        let finishAtUTC := Time_UTC finishAt in
        let expireAtUTC := Time_Add finishAtUTC (ttlOf tr) in
        inl (finishAtUTC, expireAtUTC)
    end.

(** [trTimeLeft]; the warning on a finish time in the future and the
    informational message only go to the logger. *)
Definition trTimeLeft (tr : TaskRun) (since : Time) : Duration + Error :=
  match getFinishAndExpireTime tr with
  | inr err => inr err
  | inl (finishAt, expireAt) =>
      let inTheFuture := Time_After (Time_UTC finishAt) (Time_UTC since) in
      let remaining := Time_Sub (Time_UTC expireAt) (Time_UTC since) in
      inl remaining
  end.

(** [processTrTTL] checks whether a given TaskRun's TTL has expired, and
    adds it to the queue after the TTL is expected to expire if the TTL will
    expire later. *)
Definition processTrTTL (tr : TaskRun) : M (bool * option Error) :=
  if notNil (DeletionTimestamp tr) || negb (taskRunCleanup tr)
  then ret (false, None)
  else
    now <- clockNow ;;
    match trTimeLeft tr now with
    | inr err => ret (false, Some err)
    | inl t =>
        if t <=? 0
        then ret (true, None)
        else (EnqueueAfter tr t ;; ret (false, None))
    end.

(** The options of the cascading delete. *)
Definition deleteOptionsFor (fresh : TaskRun) : DeleteOptions :=
  let policy := DeletePropagationForeground in
  {| PropagationPolicy := Some policy;
     DeletePreconditions := Some {| PreUID := Some (UID fresh) |} |}.

(** What [processTaskRunExpired] does once it has fetched the latest
    TaskRun. *)
Definition processFresh (fresh : TaskRun) : M (option Error) :=
  if HasPipelineRunOwnerReference fresh then ret None
  else
    r <- processTrTTL fresh ;;
    match r with
    | (_, Some err) => ret (Some err)
    | (false, None) => ret None
    | (true, None) =>
        Delete (Namespace fresh) (Name fresh) (deleteOptionsFor fresh)
    end.

(** [processTaskRunExpired] checks the TaskRun's state and TTL and deletes
    the TaskRun when it finishes and its TTL after finished has expired.
    [tr] is the copy the caller read from the informer cache. *)
Definition processTaskRunExpired (namespace name : string) (tr : TaskRun)
  : M (option Error) :=
  if HasPipelineRunOwnerReference tr then ret None
  else
    r <- processTrTTL tr ;;
    match r with
    | (_, Some err) => ret (Some err)
    | (false, None) => ret None
    | (true, None) =>
        got <- Get namespace name ;;
        match got with
        | inr err =>
            if IsNotFound (Some err) then ret None else ret (Some err)
        | inl fresh => processFresh fresh
        end
    end.

(** [AddTaskRun] and [UpdateTaskRun], on an object of the expected type. *)
Definition AddTaskRun (tr : TaskRun) : M unit :=
  if negb (notNil (DeletionTimestamp tr)) && taskRunCleanup tr
  then Enqueue tr
  else ret tt.

Definition UpdateTaskRun (old cur : TaskRun) : M unit :=
  let tr := cur in
  if negb (notNil (DeletionTimestamp tr)) && taskRunCleanup tr
  then Enqueue tr
  else ret tt.

End Reconciler.

(** The delete calls of a log. *)
Definition isDelete (c : Call) : bool :=
  match c with CallDelete _ _ _ => true | _ => false end.

Definition deletes (cs : list Call) : list Call :=
  List.filter isDelete cs.

(** ** Vocabulary of the statements, and the runs and worlds of the examples *)

(** 2019-11-01T00:00:00Z and one minute, in nanoseconds. *)
Definition t2019 : Time := 63708163200 * Second.
Definition minute : Duration := 60 * Second.

Definition succeededAt (t : Time) : Condition :=
  {| CondType := ConditionSucceeded;
     CondStatus := ConditionTrue;
     LastTransitionTime := t |}.

(** A run in namespace [default] that succeeded at [finish], with a TTL. *)
Definition finishedRun (uid : string) (finish : Time) (ttl : Duration)
  : TaskRun :=
  {| Namespace := "default";
     Name := "build";
     UID := uid;
     DeletionTimestamp := None;
     OwnerReferences := [];
     ExpirationSecondsTTL := Some ttl;
     Conditions := [succeededAt finish] |}.

(** The same run once its deletion has been requested at [since]. *)
Definition beingDeleted (tr : TaskRun) (since : Time) : TaskRun :=
  {| Namespace := Namespace tr;
     Name := Name tr;
     UID := UID tr;
     DeletionTimestamp := Some since;
     OwnerReferences := OwnerReferences tr;
     ExpirationSecondsTTL := ExpirationSecondsTTL tr;
     Conditions := Conditions tr |}.

(** A world whose clock always reads [now] and whose server holds
    [objs] and never fails. *)
Definition worldAt (now : Time) (objs : list TaskRun) : World :=
  {| clock := fun _ => now;
     ticks := 0;
     objects := objs;
     getFault := fun _ _ => None;
     deleteFault := fun _ _ => None;
     calls := [] |}.

(** The calls made between two worlds. *)
Definition newCalls (before after : World) : list Call :=
  skipn (length (calls before)) (calls after).

(** The server holds and answers the same in both worlds. *)
Definition sameStore (w w' : World) : Prop :=
  objects w' = objects w
  /\ getFault w' = getFault w
  /\ deleteFault w' = deleteFault w.

(** From [w] to [w'] calls were added to the log, none of them a delete. *)
Definition quietStep (w w' : World) : Prop :=
  sameStore w w'
  /\ exists cs, calls w' = (calls w ++ cs)%list /\ deletes cs = [].

(** The calls of a run that stops at the cached copy or at the re-fetch:
    none, one deferred requeue of the cached copy, or the one fetch. *)
Definition requeueOrFetch (ns name : string) (tr : TaskRun)
  (cs : list Call) : Prop :=
  cs = []
  \/ (exists after, cs = [CallEnqueueAfter (Namespace tr) (Name tr) after])
  \/ cs = [CallGet ns name].

Definition isShouldNotBeCleanedUp (err : option Error) : bool :=
  match err with
  | Some (ErrShouldNotBeCleanedUp _ _) => true
  | _ => false
  end.

(** The first terminal condition of a run, as the loop of
    [taskRunFinishTime] finds it. *)
Definition terminalCondition (tr : TaskRun) : option Condition :=
  find isTerminal (Conditions tr).

(** ** More runs for the examples *)

(** A condition of type Succeeded whose status is still unknown, and a
    condition of another type. *)
Definition runningAt (t : Time) : Condition :=
  {| CondType := ConditionSucceeded;
     CondStatus := ConditionUnknown;
     LastTransitionTime := t |}.

Definition readyAt (t : Time) : Condition :=
  {| CondType := "Ready";
     CondStatus := ConditionTrue;
     LastTransitionTime := t |}.

(** The same run with other conditions. *)
Definition withConditions (tr : TaskRun) (cons : list Condition) : TaskRun :=
  {| Namespace := Namespace tr;
     Name := Name tr;
     UID := UID tr;
     DeletionTimestamp := DeletionTimestamp tr;
     OwnerReferences := OwnerReferences tr;
     ExpirationSecondsTTL := ExpirationSecondsTTL tr;
     Conditions := cons |}.

(** The same world with a server that fails every delete with [err]. *)
Definition failingDeletes (err : Error) (w : World) : World :=
  {| clock := clock w;
     ticks := ticks w;
     objects := objects w;
     getFault := getFault w;
     deleteFault := fun _ _ => Some err;
     calls := calls w |}.

Section Verdicts.

Context `{TaskRunMethods}.

(** The TTL of the run has run out at time [t]: the run is not owned, it
    passes the guard of [processTrTTL], and its finish time plus its TTL is
    not after [t]. *)
Definition expiredAt (tr : TaskRun) (t : Time) : Prop :=
  HasPipelineRunOwnerReference tr = false
  /\ cleanupEligible tr = true
  /\ exists f d, taskRunFinishTime tr = inl f
                 /\ ExpirationSecondsTTL tr = Some d
                 /\ f + d <= t.

End Verdicts.

End TTL.

(* ================================================================== *)
(** * Part II: the Task specification validator (package [v1alpha2])   *)
(* ================================================================== *)

Module TaskValidation.

(** ** Strings of the Go standard library *)

Definition chars (s : string) : list ascii := list_ascii_of_string s.

(** The double quote, for the quotes that a format writes around an
    operand. *)
Definition dquote : string := String (ascii_of_nat 34) EmptyString.

(** A text between two double quotes, as a format with a quote on each
    side of a [%v] or [%s] prints it: nothing is escaped. *)
Definition inQuotes (s : string) : string := dquote +:+ s +:+ dquote.

(** [fmt.Sprintf("%d", i)]. *)
Definition showNat (i : nat) : string :=
  NilEmpty.string_of_uint (Nat.to_uint i).

(** A Go string is a sequence of bytes; [strings.TrimSpace] reads it as
    UTF-8 and removes the leading and the trailing characters that
    [unicode.IsSpace] accepts.  Those are, with their encodings:
    U+0009 to U+000D and U+0020 (one byte); U+0085 and U+00A0 (C2 85,
    C2 A0); U+1680 (E1 9A 80); U+2000 to U+200A (E2 80 80 to E2 80 8A);
    U+2028, U+2029 and U+202F (E2 80 A8, E2 80 A9, E2 80 AF); U+205F
    (E2 81 9F); U+3000 (E3 80 80).  The decoder accepts the shortest
    encoding of a character only and reads any other byte sequence as
    U+FFFD, which is no white space, so a string starts (or ends) with a
    white-space character exactly when it starts (or ends) with one of
    these byte sequences. *)
Definition byteIs (c : ascii) (n : nat) : bool := (nat_of_ascii c =? n)%nat.

Definition byteIn (c : ascii) (lo hi : nat) : bool :=
  ((lo <=? nat_of_ascii c)%nat && (nat_of_ascii c <=? hi)%nat).

(** Tab, line feed, vertical tab, form feed, carriage return, space. *)
Definition isSpace (c : ascii) : bool := byteIn c 9 13 || byteIs c 32.

(** U+0085 and U+00A0. *)
Definition isSpace2 (c1 c2 : ascii) : bool :=
  byteIs c1 194 && (byteIs c2 133 || byteIs c2 160).

(** The white space of three bytes. *)
Definition isSpace3 (c1 c2 c3 : ascii) : bool :=
  (byteIs c1 225 && byteIs c2 154 && byteIs c3 128)
  || (byteIs c1 226 && byteIs c2 128
      && (byteIn c3 128 138 || byteIn c3 168 169 || byteIs c3 175))
  || (byteIs c1 226 && byteIs c2 129 && byteIs c3 159)
  || (byteIs c1 227 && byteIs c2 128 && byteIs c3 128).

(** [strings.TrimLeftFunc(s, unicode.IsSpace)]. *)
Fixpoint trimLeft (s : list ascii) : list ascii :=
  match s with
  | [] => []
  | c1 :: rest1 =>
      if isSpace c1 then trimLeft rest1
      else
        match rest1 with
        | [] => s
        | c2 :: rest2 =>
            if isSpace2 c1 c2 then trimLeft rest2
            else
              match rest2 with
              | [] => s
              | c3 :: rest3 =>
                  if isSpace3 c1 c2 c3 then trimLeft rest3 else s
              end
        end
  end.

(** [strings.TrimRightFunc(s, unicode.IsSpace)], on the bytes of the string
    from the last to the first. *)
Fixpoint trimFromEnd (r : list ascii) : list ascii :=
  match r with
  | [] => []
  | c1 :: rest1 =>
      if isSpace c1 then trimFromEnd rest1
      else
        match rest1 with
        | [] => r
        | c2 :: rest2 =>
            if isSpace2 c2 c1 then trimFromEnd rest2
            else
              match rest2 with
              | [] => r
              | c3 :: rest3 =>
                  if isSpace3 c3 c2 c1 then trimFromEnd rest3 else r
              end
        end
  end.

Definition trimRight (s : list ascii) : list ascii :=
  rev (trimFromEnd (rev s)).

Definition TrimSpace (s : string) : string :=
  string_of_list_ascii (trimRight (trimLeft (chars s))).

(** [strings.HasPrefix(s, prefix)]. *)
Definition HasPrefix (s prefix : string) : bool := String.prefix prefix s.

(** ** Field errors ([knative.dev/pkg/apis]) *)

(** The text of a message.  A message that the code formats with the
    verb [%q] is kept as the call of [fmt.Sprintf] that builds it, the
    format and its operands as the source writes them: [%q] prints its
    operand as a Go string literal, escaping what the package [strconv]
    decides to escape, and nothing here depends on that.  The other verbs of
    this file ([%s] and [%v] on a string, [%d] on an index) print their
    operand as it is and are written out. *)
Inductive Text :=
| Literal (s : string)
| Sprintf (format : string) (operands : list string).

Coercion Literal : string >-> Text.

Record FieldError := mkFieldError {
  Message : Text;
  Paths : list string;
  Details : string
}.

Definition CurrentField : string := "".

Definition ErrMissingField (fieldPath : string) : FieldError :=
  {| Message := "missing field(s)"; Paths := [fieldPath]; Details := "" |}.

Definition ErrInvalidValue (value fieldPath : string) : FieldError :=
  {| Message := Literal ("invalid value: " +:+ value);
     Paths := [fieldPath];
     Details := "" |}.

(** [FieldError.ViaField(prefix)], on the one-name paths this file builds:
    every path gets the prefix and a dot in front; [nil] stays [nil]. *)
Definition ViaField (fe : option FieldError) (prefix : string)
  : option FieldError :=
  match fe with
  | None => None
  | Some e =>
      Some {| Message := Message e;
              Paths := map (fun old =>
                              if String.eqb old CurrentField then prefix
                              else prefix +:+ "." +:+ old) (Paths e);
              Details := Details e |}
  end.

(** ** Objects *)

(** [corev1.EnvVar], [corev1.VolumeMount], [corev1.Volume] and
    [corev1.Container], with the fields the validator reads. *)
Record EnvVar := mkEnvVar {
  EnvName : string;
  EnvValue : string
}.

Record VolumeMount := mkVolumeMount {
  MountName : string;
  MountPath : string;
  SubPath : string
}.

Record Volume := mkVolume {
  VolumeName : string
}.

Record Container := mkContainer {
  Name : string;
  Image : string;
  Command : list string;
  Args : list string;
  WorkingDir : string;
  Env : list EnvVar;
  VolumeMounts : list VolumeMount
}.

(** [Step] embeds a container and adds the script. *)
Record Step := mkStep {
  StepContainer : Container;
  Script : string
}.

Coercion StepContainer : Step >-> Container.

(** Modelled from the spec: the constants of the string type [ParamType],
    missing from the sources.  The recognized parameter types are exactly
    string and array. *)
Definition ParamTypeString : string := "string".
Definition ParamTypeArray : string := "array".

(** Modelled from the spec: [AllParamTypes], missing from the sources. *)
Definition AllParamTypes : list string := [ParamTypeString; ParamTypeArray].

(** [ArrayOrString] and [ParamSpec]. *)
Record ArrayOrString := mkArrayOrString {
  ValueType : string;
  StringVal : string;
  ArrayVal : list string
}.

Record ParamSpec := mkParamSpec {
  ParamName : string;
  ParamType : string;
  Default : option ArrayOrString
}.

(** ** Sequencing of checks *)

(** [if err := e; err != nil { return err }] followed by the rest of the
    function. *)
Notation "'check' e 'then' rest" :=
  (match e with
   | Some err => Some err
   | None => rest
   end) (at level 10, e at level 100, rest at level 200, only parsing).

(** [for i, x := range l { if err := body(i, x); err != nil { return err } }],
    counting from [i]. *)
Fixpoint forRange {A} (i : nat) (l : list A)
  (body : nat -> A -> option FieldError) : option FieldError :=
  match l with
  | [] => None
  | x :: rest =>
      check body i x then forRange (S i) rest body
  end.

(** ** The substitution package *)

(** The three functions of the [substitution] package that the wrappers at
    the end of the file call.  The package is outside the file embedded
    here, so the analyzer is parameterised by them.  Arguments, in order:
    name, value, prefix, contextPrefix, locationName, path, vars. *)
Class Substitution := {
  ValidateVariable :
    string -> string -> string -> string -> string -> string ->
    gset string -> option FieldError;
  ValidateVariableProhibited :
    string -> string -> string -> string -> string -> string ->
    gset string -> option FieldError;
  ValidateVariableIsolated :
    string -> string -> string -> string -> string -> string ->
    gset string -> option FieldError
}.

(** Modelled from the spec: the characters of a parameter name inside a
    placeholder (letters, digits, underscore and dash).  The substitution
    package is missing from the sources. *)
Definition isNameChar (c : ascii) : bool :=
  let n := nat_of_ascii c in
  ((48 <=? n)%nat && (n <=? 57)%nat)
  || ((65 <=? n)%nat && (n <=? 90)%nat)
  || ((97 <=? n)%nat && (n <=? 122)%nat)
  || (n =? 95)%nat || (n =? 45)%nat.

(** What follows [p] in a text that starts with [p]. *)
Fixpoint stripPrefix (p s : list ascii) : option (list ascii) :=
  match p, s with
  | [], _ => Some s
  | a :: p', b :: s' => if Ascii.eqb a b then stripPrefix p' s' else None
  | _ :: _, [] => None
  end.

(** The longest run of name characters at the start of a text, and the
    rest. *)
Fixpoint spanName (s : list ascii) : list ascii * list ascii :=
  match s with
  | c :: s' =>
      if isNameChar c
      then let (name, rest) := spanName s' in (c :: name, rest)
      else ([], s)
  | [] => ([], [])
  end.

(** Modelled from the spec: the text of a placeholder up to the name,
    [$(prefix.] *)
Definition opening (prefix : string) : list ascii :=
  "$"%char :: "("%char :: chars prefix ++ ["."%char].

(** Modelled from the spec: a variable reference, missing from the sources
    with the rest of the substitution package.  A reference is a textual
    occurrence of a template placeholder, [$(params.x)]: the opening, a
    non-empty name and a closing parenthesis. *)
Definition reference (prefix name : string) : string :=
  string_of_list_ascii (opening prefix ++ chars name ++ [")"%char]).

(** Modelled from the spec: a reference at the very start of a text; its
    name and what follows it. *)
Definition matchReference (prefix : string) (s : list ascii)
  : option (list ascii * list ascii) :=
  match stripPrefix (opening prefix) s with
  | None => None
  | Some afterOpening =>
      match spanName afterOpening with
      | (c :: name, close :: rest) =>
          if Ascii.eqb close ")"%char then Some (c :: name, rest) else None
      | _ => None
      end
  end.

(** Modelled from the spec: the names referenced in a text, left to right.
    The fuel bounds the number of steps; the length of the text and one more
    is enough. *)
Fixpoint scanReferences (fuel : nat) (prefix : string) (s : list ascii)
  : list string :=
  match fuel with
  | O => []
  | S fuel' =>
      match matchReference prefix s with
      | Some (name, rest) =>
          string_of_list_ascii name :: scanReferences fuel' prefix rest
      | None =>
          match s with
          | [] => []
          | _ :: s' => scanReferences fuel' prefix s'
          end
      end
  end.

(** Modelled from the spec: the names of the parameters a field refers
    to. *)
Definition extractVariablesFromString (value prefix : string) : list string :=
  scanReferences (S (length (chars value))) prefix (chars value).

(** [_, ok := vars[v]]. *)
Definition inSet (v : string) (vars : gset string) : bool :=
  bool_decide (v ∈ vars).

(** Modelled from the spec: [substitution.ValidateVariable].  Any reference
    to an undeclared parameter name is an error regardless of context. *)
Definition ValidateVariable_spec
  (name value prefix contextPrefix locationName path : string)
  (vars : gset string) : option FieldError :=
  let vs := extractVariablesFromString value (contextPrefix +:+ prefix) in
  if existsb (fun v => negb (inSet v vars)) vs
  then Some {| Message := Literal
                            ("reference to an undeclared parameter in "
                             +:+ inQuotes value +:+ " for " +:+ locationName
                             +:+ " " +:+ name);
               Paths := [path +:+ "." +:+ name];
               Details := "" |}
  else None.

(** Modelled from the spec: [substitution.ValidateVariableProhibited].  In a
    scalar-context field any reference to a parameter of array type is an
    error. *)
Definition ValidateVariableProhibited_spec
  (name value prefix contextPrefix locationName path : string)
  (vars : gset string) : option FieldError :=
  let vs := extractVariablesFromString value (contextPrefix +:+ prefix) in
  if existsb (fun v => inSet v vars) vs
  then Some {| Message := Literal
                            ("array reference in scalar-only context in "
                             +:+ inQuotes value +:+ " for " +:+ locationName
                             +:+ " " +:+ name);
               Paths := [path +:+ "." +:+ name];
               Details := "" |}
  else None.

(** Modelled from the spec: [substitution.ValidateVariableIsolated].  In an
    array-eligible field a reference to a parameter of array type must be
    the field's entire content: no surrounding literal text, no
    concatenation with another reference. *)
Definition ValidateVariableIsolated_spec
  (name value prefix contextPrefix locationName path : string)
  (vars : gset string) : option FieldError :=
  let vs := extractVariablesFromString value (contextPrefix +:+ prefix) in
  if existsb (fun v =>
                inSet v vars
                && negb (String.eqb value
                           (reference (contextPrefix +:+ prefix) v))) vs
  then Some {| Message := Literal
                            ("array reference must be isolated in "
                             +:+ inQuotes value +:+ " for " +:+ locationName
                             +:+ " " +:+ name);
               Paths := [path +:+ "." +:+ name];
               Details := "" |}
  else None.

(** The substitution package as the spec describes it; the examples run
    with it. *)
Definition specSubstitution : Substitution :=
  {| ValidateVariable := ValidateVariable_spec;
     ValidateVariableProhibited := ValidateVariableProhibited_spec;
     ValidateVariableIsolated := ValidateVariableIsolated_spec |}.

(** ** The variable usage analyzer *)

Section Analyzer.

Context `{Substitution}.

Definition validateTaskVariable (name value prefix : string)
  (vars : gset string) : option FieldError :=
  ValidateVariable name value prefix "" "step" "taskspec.steps" vars.

Definition validateTaskNoArrayReferenced (name value prefix : string)
  (arrayNames : gset string) : option FieldError :=
  ValidateVariableProhibited name value prefix "" "step" "taskspec.steps"
                             arrayNames.

Definition validateTaskArraysIsolated (name value prefix : string)
  (arrayNames : gset string) : option FieldError :=
  ValidateVariableIsolated name value prefix "" "step" "taskspec.steps"
                           arrayNames.

(** The body of the loop over the steps in [validateVariables]. *)
Definition validateVariablesStep (prefix : string) (vars : gset string)
  (step : Step) : option FieldError :=
  check validateTaskVariable "name" (Name step) prefix vars then
  check validateTaskVariable "image" (Image step) prefix vars then
  check validateTaskVariable "workingDir" (WorkingDir step) prefix vars then
  check forRange 0 (Command step) (fun i cmd =>
          validateTaskVariable ("command[" +:+ showNat i +:+ "]")
                               cmd prefix vars) then
  check forRange 0 (Args step) (fun i arg =>
          validateTaskVariable ("arg[" +:+ showNat i +:+ "]")
                               arg prefix vars) then
  check forRange 0 (Env step) (fun _ env =>
          validateTaskVariable ("env[" +:+ EnvName env +:+ "]")
                               (EnvValue env) prefix vars) then
  check forRange 0 (VolumeMounts step) (fun i v =>
          check validateTaskVariable
                  ("volumeMount[" +:+ showNat i +:+ "].Name")
                  (MountName v) prefix vars then
          check validateTaskVariable
                  ("volumeMount[" +:+ showNat i +:+ "].MountPath")
                  (MountPath v) prefix vars then
          check validateTaskVariable
                  ("volumeMount[" +:+ showNat i +:+ "].SubPath")
                  (SubPath v) prefix vars then
          None) then
  None.

Definition validateVariables (steps : list Step) (prefix : string)
  (vars : gset string) : option FieldError :=
  check forRange 0 steps (fun _ step =>
          validateVariablesStep prefix vars step) then
  None.

(** The body of the loop over the steps in [validateArrayUsage]. *)
Definition validateArrayUsageStep (prefix : string) (vars : gset string)
  (step : Step) : option FieldError :=
  check validateTaskNoArrayReferenced "name" (Name step) prefix vars then
  check validateTaskNoArrayReferenced "image" (Image step) prefix vars then
  check validateTaskNoArrayReferenced "workingDir" (WorkingDir step)
                                      prefix vars then
  check forRange 0 (Command step) (fun i cmd =>
          validateTaskArraysIsolated ("command[" +:+ showNat i +:+ "]")
                                     cmd prefix vars) then
  check forRange 0 (Args step) (fun i arg =>
          validateTaskArraysIsolated ("arg[" +:+ showNat i +:+ "]")
                                     arg prefix vars) then
  check forRange 0 (Env step) (fun _ env =>
          validateTaskNoArrayReferenced ("env[" +:+ EnvName env +:+ "]")
                                        (EnvValue env) prefix vars) then
  check forRange 0 (VolumeMounts step) (fun i v =>
          check validateTaskNoArrayReferenced
                  ("volumeMount[" +:+ showNat i +:+ "].Name")
                  (MountName v) prefix vars then
          check validateTaskNoArrayReferenced
                  ("volumeMount[" +:+ showNat i +:+ "].MountPath")
                  (MountPath v) prefix vars then
          check validateTaskNoArrayReferenced
                  ("volumeMount[" +:+ showNat i +:+ "].SubPath")
                  (SubPath v) prefix vars then
          None) then
  None.

Definition validateArrayUsage (steps : list Step) (prefix : string)
  (vars : gset string) : option FieldError :=
  check forRange 0 steps (fun _ step =>
          validateArrayUsageStep prefix vars step) then
  None.

(** The two sets [validateParameterVariables] fills in its loop over the
    parameters. *)
Definition collectParameterNames (params : list ParamSpec) : gset string :=
  fold_left (fun names p => {[ParamName p]} ∪ names) params ∅.

Definition collectArrayParameterNames (params : list ParamSpec)
  : gset string :=
  fold_left (fun names p =>
               if String.eqb (ParamType p) ParamTypeArray
               then {[ParamName p]} ∪ names
               else names) params ∅.

Definition validateParameterVariables (steps : list Step)
  (params : list ParamSpec) : option FieldError :=
  let parameterNames := collectParameterNames params in
  let arrayParameterNames := collectArrayParameterNames params in
  check validateVariables steps "params" parameterNames then
  validateArrayUsage steps "params" arrayParameterNames.

End Analyzer.

(** ** The validator *)

(** [ValidateVolumes]: a task must not have duplicate volume names. *)
Fixpoint validateVolumesFrom (vols : gset string) (volumes : list Volume)
  : option FieldError :=
  match volumes with
  | [] => None
  | v :: rest =>
      if inSet (VolumeName v) vols
      then Some {| Message := Sprintf "multiple volumes with same name %q"
                                          [VolumeName v];
                   Paths := ["name"];
                   Details := "" |}
      else validateVolumesFrom ({[VolumeName v]} ∪ vols) rest
  end.

Definition ValidateVolumes (volumes : list Volume) : option FieldError :=
  validateVolumesFrom ∅ volumes.

Definition isEmptyString (s : string) : bool := String.eqb s "".

Definition nonEmpty {A} (l : list A) : bool :=
  match l with
  | [] => false
  | _ :: _ => true
  end.

(** [validateSteps]: image, script and duplicate step names. *)
Fixpoint validateStepsFrom (names : gset string) (steps : list Step)
  : option FieldError :=
  match steps with
  | [] => None
  | s :: rest =>
      if isEmptyString (Image s) then Some (ErrMissingField "Image")
      else
        check (if negb (isEmptyString (Script s))
               then
                 if nonEmpty (Args s) || nonEmpty (Command s)
                 then Some {| Message :=
                                "script cannot be used with args or command";
                              Paths := ["script"];
                              Details := "" |}
                 else if negb (HasPrefix (TrimSpace (Script s)) "#!")
                 then Some {| Message :=
                                "script must start with a shebang (#!)";
                              Paths := ["script"];
                              Details := "" |}
                 else None
               else None) then
        if isEmptyString (Name s) then validateStepsFrom names rest
        else if inSet (Name s) names
        then Some (ErrInvalidValue (Name s) "name")
        else validateStepsFrom ({[Name s : string]} ∪ names) rest
  end.

Definition validateSteps (steps : list Step) : option FieldError :=
  validateStepsFrom ∅ steps.

(** [validateParameterTypes]: the type is one of [AllParamTypes] and the
    default value, when there is one, has the declared type. *)
Definition validateParameterTypes (params : list ParamSpec)
  : option FieldError :=
  forRange 0 params (fun _ p =>
    let validType :=
      fold_left (fun validType allowedType =>
                   if String.eqb (ParamType p) allowedType then true
                   else validType) AllParamTypes false in
    if negb validType
    then Some (ErrInvalidValue (ParamType p)
                 ("taskspec.params." +:+ ParamName p +:+ ".type"))
    else
      match Default p with
      | Some d =>
          if negb (String.eqb (ValueType d) (ParamType p))
          then Some {| Message :=
                         Literal
                           (inQuotes (ParamType p)
                            +:+ " type does not match default value's type: "
                            +:+ inQuotes (ValueType d));
                       Paths :=
                         ["taskspec.params." +:+ ParamName p +:+ ".type";
                          "taskspec.params." +:+ ParamName p
                          +:+ ".default.type"];
                       Details := "" |}
          else None
      | None => None
      end).

Section Validator.

(** The declaration of the task's resources, which the validator only
    hands on to its own [Validate] method. *)
Variable TaskResources : Type.

(** [TaskSpec], with the fields the validator reads. *)
Record TaskSpec := mkTaskSpec {
  Resources : option TaskResources;
  Params : list ParamSpec;
  Steps : list Step;
  Volumes : list Volume;
  StepTemplate : option Container
}.

(** What [TaskSpec.Validate] calls outside the file embedded here: the
    validation of the resources, the merge of the step template into the
    steps and the label check of the Kubernetes validation package (the
    list of the complaints about a name).

    [MergeStepsWithStepTemplate] is handed the slice [ts.Steps] itself.  A
    Go slice shares its elements with the caller, so the callee may
    overwrite the steps of the task while it builds its result.  The
    function therefore has two results here: what it returns (the merged
    steps, or [inr] with the text of its error) and the steps that
    [ts.Steps] holds when it has returned. *)
Class Collaborators := {
  ResourcesValidate : option TaskResources -> option FieldError;
  MergeStepsWithStepTemplate :
    option Container -> list Step -> (list Step + string) * list Step;
  IsDNS1123Label : string -> list string
}.

Context `{Substitution} `{Collaborators}.

(** [equality.Semantic.DeepEqual(ts, &TaskSpec{})]. *)
Definition isZeroTaskSpec (ts : TaskSpec) : bool :=
  match Resources ts, StepTemplate ts with
  | None, None =>
      negb (nonEmpty (Params ts))
      && negb (nonEmpty (Steps ts))
      && negb (nonEmpty (Volumes ts))
  | _, _ => false
  end.

(** The loop over [ts.Steps] that validates the task step names. *)
Definition validateStepNames (steps : list Step) : option FieldError :=
  forRange 0 steps (fun _ step =>
    let errs := IsDNS1123Label (Name step) in
    if negb (isEmptyString (Name step)) && nonEmpty errs
    then Some {| Message := Sprintf "invalid value %q" [Name step : string];
                 Paths := ["taskspec.steps.name"];
                 Details :=
                   "Task step name must be a valid DNS Label, For more info refer to https://kubernetes.io/docs/concepts/overview/working-with-objects/names/#names" |}
    else None).

(** [TaskSpec.Validate].  [tsSteps] is what [ts.Steps] holds once
    [MergeStepsWithStepTemplate] has returned; the loop over the step names
    and the variable usage analysis read it then. *)
Definition Validate (ts : TaskSpec) : option FieldError :=
  if isZeroTaskSpec ts then Some (ErrMissingField CurrentField)
  else if (length (Steps ts) =? 0)%nat then Some (ErrMissingField "steps")
  else
    check ViaField (ValidateVolumes (Volumes ts)) "volumes" then
    let (merged, tsSteps) :=
      MergeStepsWithStepTemplate (StepTemplate ts) (Steps ts) in
    match merged with
    | inr err =>
        Some {| Message := Literal
                             ("error merging step template and steps: "
                              +:+ err);
                Paths := ["stepTemplate"];
                Details := "" |}
    | inl mergedSteps =>
        check ViaField (validateSteps mergedSteps) "steps" then
        check ResourcesValidate (Resources ts) then
        check validateParameterTypes (Params ts) then
        check validateStepNames tsSteps then
        check validateParameterVariables tsSteps (Params ts) then
        None
    end.

End Validator.

Arguments Resources {TaskResources} _.
Arguments Params {TaskResources} _.
Arguments Steps {TaskResources} _.
Arguments Volumes {TaskResources} _.
Arguments StepTemplate {TaskResources} _.
Arguments Validate {TaskResources _ _} _.
Arguments validateStepNames {TaskResources _} _.
Arguments isZeroTaskSpec {TaskResources} _.
Arguments ResourcesValidate {TaskResources _} _.
Arguments MergeStepsWithStepTemplate {TaskResources _} _ _.
Arguments IsDNS1123Label {TaskResources _} _.

(** Modelled from the spec: a template field is a default, an explicit
    step field wins. *)
Definition orDefault (explicit template : string) : string :=
  if isEmptyString explicit then template else explicit.

Definition orDefaultList {A} (explicit template : list A) : list A :=
  if nonEmpty explicit then explicit else template.

(** Modelled from the spec: the merge of the template into one step's
    container. *)
Definition mergeContainer (template c : Container) : Container :=
  {| Name := orDefault (Name c) (Name template);
     Image := orDefault (Image c) (Image template);
     Command := orDefaultList (Command c) (Command template);
     Args := orDefaultList (Args c) (Args template);
     WorkingDir := orDefault (WorkingDir c) (WorkingDir template);
     Env := orDefaultList (Env c) (Env template);
     VolumeMounts := orDefaultList (VolumeMounts c) (VolumeMounts template) |}.

(** Modelled from the spec: [MergeStepsWithStepTemplate], missing from the
    sources.  The shared step template is merged into each step: every
    step of the slice is overwritten with its merge, and the slice is what
    the function returns.  Without a template the steps stay as they
    are. *)
Definition mergedWith (template : option Container) (steps : list Step)
  : list Step :=
  match template with
  | None => steps
  | Some t =>
      map (fun s : Step =>
             {| StepContainer := mergeContainer t s;
                Script := Script s |}) steps
  end.

Definition MergeStepsWithStepTemplate_spec (template : option Container)
  (steps : list Step) : (list Step + string) * list Step :=
  (inl (mergedWith template steps), mergedWith template steps).

(** The label rule of the Kubernetes validation package: at most 63
    characters, lower case letters, digits and dashes, a letter or digit at
    both ends. *)
Definition isLowerAlnum (c : ascii) : bool :=
  let n := nat_of_ascii c in
  ((48 <=? n)%nat && (n <=? 57)%nat) || ((97 <=? n)%nat && (n <=? 122)%nat).

Definition isLabelChar (c : ascii) : bool :=
  isLowerAlnum c || Ascii.eqb c "-"%char.

Definition matchesLabel (value : string) : bool :=
  match chars value with
  | [] => false
  | c :: rest =>
      isLowerAlnum c && forallb isLabelChar rest
      && isLowerAlnum (List.last rest c)
  end.

Definition IsDNS1123Label_k8s (value : string) : list string :=
  (if (63 <? length (chars value))%nat
   then ["must be no more than 63 characters"] else [])
  ++ (if matchesLabel value then []
      else ["a DNS-1123 label must consist of lower case alphanumeric characters or '-', and must start and end with an alphanumeric character"]).

(** The collaborators of a task that declares no resources. *)
Definition plainCollaborators : Collaborators unit :=
  {| ResourcesValidate := fun _ => None;
     MergeStepsWithStepTemplate := MergeStepsWithStepTemplate_spec;
     IsDNS1123Label := IsDNS1123Label_k8s |}.

(** ** Vocabulary of the statements *)

(** The two kinds of field that can carry template text. *)
Inductive FieldContext :=
| ScalarContext
| ArrayEligibleContext.

(** A field of a step as the analyzer sees it: the name it reports, the
    text, the kind. *)
Record Field := mkField {
  FieldName : string;
  FieldValue : string;
  FieldCtx : FieldContext
}.

Fixpoint indexedFrom {A} (i : nat) (l : list A) : list (nat * A) :=
  match l with
  | [] => []
  | x :: rest => (i, x) :: indexedFrom (S i) rest
  end.

(** The fields of one step in the order of the walk: name, image,
    workingDir, command tokens, argument tokens, environment values, volume
    mounts (name, mount path and sub-path of each). *)
Definition stepFields (step : Step) : list Field :=
  ([mkField "name" (Name step) ScalarContext;
    mkField "image" (Image step) ScalarContext;
    mkField "workingDir" (WorkingDir step) ScalarContext]
   ++ map (fun ic : nat * string =>
             mkField ("command[" +:+ showNat (fst ic) +:+ "]") (snd ic)
                     ArrayEligibleContext)
          (indexedFrom 0 (Command step))
   ++ map (fun ia : nat * string =>
             mkField ("arg[" +:+ showNat (fst ia) +:+ "]") (snd ia)
                     ArrayEligibleContext)
          (indexedFrom 0 (Args step))
   ++ map (fun env =>
             mkField ("env[" +:+ EnvName env +:+ "]") (EnvValue env)
                     ScalarContext)
          (Env step)
   ++ flat_map (fun iv : nat * VolumeMount =>
                  [mkField ("volumeMount[" +:+ showNat (fst iv) +:+ "].Name")
                           (MountName (snd iv)) ScalarContext;
                   mkField ("volumeMount[" +:+ showNat (fst iv)
                            +:+ "].MountPath")
                           (MountPath (snd iv)) ScalarContext;
                   mkField ("volumeMount[" +:+ showNat (fst iv)
                            +:+ "].SubPath")
                           (SubPath (snd iv)) ScalarContext])
               (indexedFrom 0 (VolumeMounts step)))%list.

(** The walk: steps in declaration order, the fields of each in the order
    above. *)
Definition walk (steps : list Step) : list Field :=
  flat_map stepFields steps.

(** The first error a check finds along a list. *)
Fixpoint firstError {A} (chk : A -> option FieldError) (l : list A)
  : option FieldError :=
  match l with
  | [] => None
  | x :: rest => check chk x then firstError chk rest
  end.

Section Violations.

Context `{Substitution}.

(** The two checks on one field: a reference to an undeclared name, and an
    array parameter misused for the kind of the field. *)
Definition undeclaredIn (names : gset string) (fld : Field)
  : option FieldError :=
  validateTaskVariable (FieldName fld) (FieldValue fld) "params" names.

Definition arrayMisuseIn (arrayNames : gset string) (fld : Field)
  : option FieldError :=
  match FieldCtx fld with
  | ScalarContext =>
      validateTaskNoArrayReferenced (FieldName fld) (FieldValue fld)
                                    "params" arrayNames
  | ArrayEligibleContext =>
      validateTaskArraysIsolated (FieldName fld) (FieldValue fld)
                                 "params" arrayNames
  end.

(** The analyzer as the spec words it: one walk over the fields that stops
    at the first field with a violation of any kind. *)
Definition firstViolationInWalk (steps : list Step) (params : list ParamSpec)
  : option FieldError :=
  firstError (fun fld =>
                check undeclaredIn (collectParameterNames params) fld then
                arrayMisuseIn (collectArrayParameterNames params) fld)
             (walk steps).

End Violations.

(** [v] is the text of a scalar-context field of the step: its name, image
    or workingDir, the value of an environment variable, or the name, mount
    path or sub-path of a volume mount. *)
Definition scalarFieldOf (step : Step) (v : string) : Prop :=
  Name step = v
  \/ Image step = v
  \/ WorkingDir step = v
  \/ (exists env, In env (Env step) /\ EnvValue env = v)
  \/ (exists vm, In vm (VolumeMounts step)
                 /\ (MountName vm = v \/ MountPath vm = v \/ SubPath vm = v)).

(** [v] is a command or argument token of the step. *)
Definition tokenOf (step : Step) (v : string) : Prop :=
  In v (Command step) \/ In v (Args step).

(** A name that can stand in a placeholder. *)
Definition isParameterName (p : string) : bool :=
  nonEmpty (chars p) && forallb isNameChar (chars p).

(** [p] is declared with array type. *)
Definition declaredArray (params : list ParamSpec) (p : string) : Prop :=
  exists prm, In prm params
              /\ ParamName prm = p
              /\ ParamType prm = ParamTypeArray.

(** ** Tasks of the examples *)

Definition plainContainer (image : string) : Container :=
  {| Name := ""; Image := image; Command := []; Args := [];
     WorkingDir := ""; Env := []; VolumeMounts := [] |}.

Definition listParam : ParamSpec :=
  {| ParamName := "list"; ParamType := ParamTypeArray; Default := None |}.

(** A step whose name refers to the array parameter and whose image refers
    to a parameter nobody declared. *)
Definition twoViolations : Step :=
  {| StepContainer :=
       {| Name := "$(params.list)"; Image := "$(params.missing)";
          Command := []; Args := []; WorkingDir := ""; Env := [];
          VolumeMounts := [] |};
     Script := "" |}.

(** A task whose step template brings a working directory that refers to
    an undeclared parameter. *)
Definition templatedTask : TaskSpec unit :=
  {| Resources := None;
     Params := [];
     Steps := [{| StepContainer := plainContainer "busybox"; Script := "" |}];
     Volumes := [];
     StepTemplate :=
       Some {| Name := ""; Image := ""; Command := []; Args := [];
               WorkingDir := "$(params.missing)"; Env := [];
               VolumeMounts := [] |} |}.

(** A step that passes an argument list. *)
Definition stepWithArgs (args : list string) : Step :=
  {| StepContainer :=
       {| Name := ""; Image := "busybox"; Command := []; Args := args;
          WorkingDir := ""; Env := []; VolumeMounts := [] |};
     Script := "" |}.

(** ** Vocabulary of the statements on the structural checks *)

(** What [validateSteps] asks of one step, names apart: an image, and a
    script only without arguments and command and with a shebang at its
    start once the white space around it is trimmed. *)
Definition stepWellFormed (s : Step) : bool :=
  negb (isEmptyString (Image s))
  && (isEmptyString (Script s)
      || (negb (nonEmpty (Args s) || nonEmpty (Command s))
          && HasPrefix (TrimSpace (Script s)) "#!")).

(** The names of the steps that have one, in order. *)
Definition stepNames (steps : list Step) : list string :=
  List.filter (fun n => negb (isEmptyString n))
              (map (fun s : Step => Name s) steps).

(** The type of a parameter is a recognized one. *)
Definition hasValidType (p : ParamSpec) : bool :=
  existsb (String.eqb (ParamType p)) AllParamTypes.

(** The default value of a parameter, if any, has the declared type. *)
Definition defaultMatches (p : ParamSpec) : bool :=
  match Default p with
  | Some d => String.eqb (ValueType d) (ParamType p)
  | None => true
  end.

(** The error of [ValidateVolumes] on a repeated name. *)
Definition duplicateVolume (name : string) : FieldError :=
  {| Message := Sprintf "multiple volumes with same name %q" [name];
     Paths := ["name"];
     Details := "" |}.

(** The string of the given bytes. *)
Definition bytes (l : list nat) : string :=
  string_of_list_ascii (map ascii_of_nat l).

(** The white-space characters of Unicode, in UTF-8: U+0009 to U+000D,
    U+0020, U+0085, U+00A0, U+1680, U+2000 to U+200A, U+2028, U+2029,
    U+202F, U+205F and U+3000. *)
Definition whiteSpace : list string :=
  map bytes
    ([[9]; [10]; [11]; [12]; [13]; [32];
     [194; 133]; [194; 160];
     [225; 154; 128];
     [226; 128; 128]; [226; 128; 129]; [226; 128; 130]; [226; 128; 131];
     [226; 128; 132]; [226; 128; 133]; [226; 128; 134]; [226; 128; 135];
     [226; 128; 136]; [226; 128; 137]; [226; 128; 138];
     [226; 128; 168]; [226; 128; 169]; [226; 128; 175];
     [226; 129; 159];
     [227; 128; 128]])%nat.

(** The characters one after the other. *)
Definition joined (l : list string) : string :=
  fold_right String.append "" l.

(** A text made of white-space characters only. *)
Definition allSpace (s : string) : Prop :=
  exists l, List.Forall (fun c => In c whiteSpace) l /\ s = joined l.

(** ** More tasks for the examples *)

Definition namedStep (name image : string) : Step :=
  {| StepContainer :=
       {| Name := name; Image := image; Command := []; Args := [];
          WorkingDir := ""; Env := []; VolumeMounts := [] |};
     Script := "" |}.

Definition scriptStep (image script : string) : Step :=
  {| StepContainer := plainContainer image; Script := script |}.

Definition stringParam (name : string) : ParamSpec :=
  {| ParamName := name; ParamType := ParamTypeString; Default := None |}.

(** A task with one plain step and the given volumes. *)
Definition taskWithVolumes (volumes : list Volume) : TaskSpec unit :=
  {| Resources := None;
     Params := [];
     Steps := [namedStep "build" "busybox"];
     Volumes := volumes;
     StepTemplate := None |}.

End TaskValidation.

(* ================================================================== *)
(** * Part III: properties of the TTL reconciler                       *)
(* ================================================================== *)

Module TTLProofs.

Import TTL.

Local Open Scope ttl_scope.
Local Open Scope list_scope.

Section Properties.

Context `{TaskRunMethods}.

(** ** Unfolding lemmas *)

Lemma taskRunCleanup_true (tr : TaskRun) :
  taskRunCleanup tr = true <->
  ExpirationSecondsTTL tr <> None
  /\ IsDone tr = true
  /\ HasPipelineRunOwnerReference tr = false.
Proof.
  unfold taskRunCleanup.
  rewrite !andb_true_iff, negb_true_iff.
  destruct (ExpirationSecondsTTL tr); simpl; intuition congruence.
Qed.

Lemma cleanupEligible_true (tr : TaskRun) :
  cleanupEligible tr = true <->
  DeletionTimestamp tr = None /\ taskRunCleanup tr = true.
Proof.
  unfold cleanupEligible.
  rewrite andb_true_iff, negb_true_iff.
  destruct (DeletionTimestamp tr); simpl; intuition congruence.
Qed.

Lemma guard_eligible (tr : TaskRun) :
  notNil (DeletionTimestamp tr) || negb (taskRunCleanup tr)
  = negb (cleanupEligible tr).
Proof.
  unfold cleanupEligible.
  now rewrite negb_andb, negb_involutive.
Qed.

Lemma finishTimeIn_find (ns name : string) (cons : list Condition) :
  finishTimeIn ns name cons =
  match find isTerminal cons with
  | None => inr (ErrStatusNotFound ns name)
  | Some con =>
      if Time_IsZero (LastTransitionTime con)
      then inr (ErrFinishTimeUnset ns name)
      else inl (LastTransitionTime con)
  end.
Proof.
  induction cons as [|con rest IH]; simpl; [reflexivity|].
  unfold isTerminal at 1.
  destruct (String.eqb (CondType con) ConditionSucceeded
            && negb (String.eqb (CondStatus con) ConditionUnknown));
    [reflexivity | exact IH].
Qed.

Lemma taskRunFinishTime_find (tr : TaskRun) :
  taskRunFinishTime tr =
  match terminalCondition tr with
  | None => inr (ErrStatusNotFound (Namespace tr) (Name tr))
  | Some con =>
      if Time_IsZero (LastTransitionTime con)
      then inr (ErrFinishTimeUnset (Namespace tr) (Name tr))
      else inl (LastTransitionTime con)
  end.
Proof. apply finishTimeIn_find. Qed.

(** Once the cleanup predicate holds, [trTimeLeft] is the finish time plus
    the TTL minus the time of the check, or the error of
    [taskRunFinishTime]. *)
Lemma trTimeLeft_cleanup (tr : TaskRun) (since : Time) :
  taskRunCleanup tr = true ->
  trTimeLeft tr since =
  match taskRunFinishTime tr with
  | inr err => inr err
  | inl finishAt => inl (Time_Sub (Time_Add finishAt (ttlOf tr)) since)
  end.
Proof.
  intros Hc. unfold trTimeLeft, getFinishAndExpireTime.
  rewrite Hc. simpl.
  destruct (taskRunFinishTime tr); reflexivity.
Qed.

(** What one run of [processTrTTL] does, case by case. *)
Lemma processTrTTL_unfold (tr : TaskRun) (w : World) :
  processTrTTL tr w =
  if cleanupEligible tr
  then
    match taskRunFinishTime tr with
    | inr err => ((false, Some err), ticked w)
    | inl finishAt =>
        let t := Time_Sub (Time_Add finishAt (ttlOf tr))
                          (clock w (ticks w)) in
        if t <=? 0
        then ((true, None), ticked w)
        else ((false, None),
              logged (CallEnqueueAfter (Namespace tr) (Name tr) t)
                     (ticked w))
    end
  else ((false, None), w).
Proof.
  unfold processTrTTL. rewrite guard_eligible.
  destruct (cleanupEligible tr) eqn:He; simpl; [|reflexivity].
  apply cleanupEligible_true in He as [_ Hc].
  unfold bind, clockNow. rewrite (trTimeLeft_cleanup _ _ Hc).
  destruct (taskRunFinishTime tr) as [finishAt|err]; [|reflexivity].
  simpl. destruct (_ <=? 0); reflexivity.
Qed.

Lemma Time_Sub_spec (t u : Time) :
  Time_Sub t u = Z.max minDuration (Z.min maxDuration (t - u)).
Proof.
  unfold Time_Sub, maxDuration, minDuration.
  destruct (Z.ltb_spec (2 ^ 63 - 1) (t - u));
    destruct (Z.ltb_spec (t - u) (- 2 ^ 63)); lia.
Qed.

Lemma Time_Sub_sign (t u : Time) :
  (Time_Sub t u <=? 0) = (t - u <=? 0).
Proof.
  rewrite Time_Sub_spec. unfold maxDuration, minDuration.
  destruct (Z.leb_spec (t - u) 0);
    [apply Z.leb_le | apply Z.leb_gt]; lia.
Qed.

(** ** Eligibility (C2) *)

(** C2.  A run passes the eligibility test of the reconciler (the guard of
    [processTrTTL], [AddTaskRun] and [UpdateTaskRun]) if and only if its TTL
    is set, it is done (it has reached a terminal condition), it has no
    parent-owner reference and its deletion timestamp is unset.  In
    particular a run with no TTL is not eligible, and a run with an owner
    reference is not eligible whatever its TTL and its conditions are.
    [taskRunCleanup] alone decides the first three conditions; the deletion
    timestamp is tested next to each of its calls. *)
Theorem cleanup_eligibility (tr : TaskRun) :
  (cleanupEligible tr = true <->
     ExpirationSecondsTTL tr <> None
     /\ IsDone tr = true
     /\ HasPipelineRunOwnerReference tr = false
     /\ DeletionTimestamp tr = None)
  /\ (ExpirationSecondsTTL tr = None ->
      taskRunCleanup tr = false /\ cleanupEligible tr = false)
  /\ (HasPipelineRunOwnerReference tr = true ->
      taskRunCleanup tr = false /\ cleanupEligible tr = false).
Proof.
  split; [|split].
  - rewrite cleanupEligible_true, taskRunCleanup_true. tauto.
  - intros Hn. unfold cleanupEligible, taskRunCleanup. rewrite Hn. simpl.
    now rewrite andb_false_r.
  - intros Ho. unfold cleanupEligible, taskRunCleanup. rewrite Ho. simpl.
    now rewrite !andb_false_r.
Qed.

(** With [IsDone] as the spec describes it, a done run is a run with a
    condition of type Succeeded whose status is not Unknown. *)
Lemma IsDone_spec_terminal (tr : TaskRun) :
  IsDone_spec tr = true <->
  exists con, In con (Conditions tr)
              /\ CondType con = ConditionSucceeded
              /\ CondStatus con <> ConditionUnknown.
Proof.
  unfold IsDone_spec. rewrite existsb_exists.
  split; intros (con & Hin & Hc); exists con; (split; [exact Hin|]).
  - unfold isTerminal in Hc. apply andb_true_iff in Hc as [Ht Hs].
    apply negb_true_iff in Hs.
    split; [now apply String.eqb_eq|now apply String.eqb_neq].
  - destruct Hc as [Ht Hs]. unfold isTerminal.
    apply andb_true_iff. split; [now apply String.eqb_eq|].
    apply negb_true_iff. now apply String.eqb_neq.
Qed.

(** [AddTaskRun] and [UpdateTaskRun] enqueue exactly the eligible runs. *)
Lemma AddTaskRun_enqueues (tr : TaskRun) (w : World) :
  AddTaskRun tr w =
  if cleanupEligible tr
  then (tt, logged (CallEnqueue (Namespace tr) (Name tr)) w)
  else (tt, w).
Proof.
  unfold AddTaskRun, cleanupEligible.
  destruct (negb (notNil (DeletionTimestamp tr)) && taskRunCleanup tr);
    reflexivity.
Qed.

Lemma UpdateTaskRun_enqueues (old cur : TaskRun) (w : World) :
  UpdateTaskRun old cur w = AddTaskRun cur w.
Proof. reflexivity. Qed.

(** ** The error branch of [getFinishAndExpireTime] (C10) *)

(** C10.  [processTrTTL] never comes back with the error of
    [getFinishAndExpireTime] that says the run should not be cleaned up:
    it computes the time left only for a run whose deletion timestamp is
    unset and on which [taskRunCleanup] holds, and on such a run
    [getFinishAndExpireTime] skips that branch and goes on to the finish
    time. *)
Theorem should_not_be_cleaned_up_unreachable (tr : TaskRun) (w : World) :
  isShouldNotBeCleanedUp (snd (fst (processTrTTL tr w))) = false
  /\ (notNil (DeletionTimestamp tr) || negb (taskRunCleanup tr) = false ->
      getFinishAndExpireTime tr =
      match taskRunFinishTime tr with
      | inr err => inr err
      | inl finishAt =>
          inl (Time_UTC finishAt, Time_Add (Time_UTC finishAt) (ttlOf tr))
      end
      /\ forall ns name, taskRunFinishTime tr
                         <> inr (ErrShouldNotBeCleanedUp ns name)).
Proof.
  split.
  - rewrite processTrTTL_unfold.
    destruct (cleanupEligible tr); [|reflexivity].
    rewrite taskRunFinishTime_find.
    destruct (terminalCondition tr) as [con|]; [|reflexivity].
    destruct (Time_IsZero (LastTransitionTime con)); [reflexivity|].
    simpl. destruct (_ <=? 0); reflexivity.
  - intros Hg. apply orb_false_iff in Hg as [_ Hc].
    apply negb_false_iff in Hc. split.
    + unfold getFinishAndExpireTime. now rewrite Hc.
    + intros ns name. rewrite taskRunFinishTime_find.
      destruct (terminalCondition tr) as [con|]; [|discriminate].
      destruct (Time_IsZero (LastTransitionTime con)); discriminate.
Qed.

(** ** Time left and the deferred requeue (C3) *)

(** C3, as the code has it.  For an eligible run with TTL [d] whose finish
    time is [f], checked when the clock reads [t]: if [t < f + d] the check
    schedules exactly one deferred requeue and reports not expired; the
    delay is the remaining time [f + d - t] whenever a [Duration] can hold
    it, and the largest [Duration] otherwise.  If [f + d <= t] the check
    reports expired and schedules nothing. *)
Theorem ttl_check_remaining (tr : TaskRun) (w : World)
  (d : Duration) (f : Time) :
  cleanupEligible tr = true ->
  ExpirationSecondsTTL tr = Some d ->
  taskRunFinishTime tr = inl f ->
  let t := clock w (ticks w) in
  (t < f + d ->
     processTrTTL tr w =
     ((false, None),
      logged (CallEnqueueAfter (Namespace tr) (Name tr)
                               (Z.min (f + d - t) maxDuration))
             (ticked w))
     /\ (f + d - t <= maxDuration ->
         Z.min (f + d - t) maxDuration = f + d - t))
  /\ (f + d <= t -> processTrTTL tr w = ((true, None), ticked w)).
Proof.
  intros He Hd Hf t.
  rewrite processTrTTL_unfold, He, Hf.
  unfold ttlOf. rewrite Hd. cbv zeta. fold t.
  rewrite Time_Sub_sign. unfold Time_Add.
  split.
  - intros Hlt. split; [|lia].
    destruct (Z.leb_spec (f + d - t) 0); [lia|].
    do 3 f_equal. rewrite Time_Sub_spec.
    unfold maxDuration, minDuration. lia.
  - intros Hge.
    destruct (Z.leb_spec (f + d - t) 0); [reflexivity|lia].
Qed.

(** ** The authoritative re-fetch *)

Lemma Get_unfold (ns name : string) (w : World) :
  Get ns name w = (serveGet ns name w, logged (CallGet ns name) w).
Proof. reflexivity. Qed.

Lemma Delete_unfold (ns name : string) (options : DeleteOptions)
  (w : World) :
  Delete ns name options w
  = serveDelete ns name options (logged (CallDelete ns name options) w).
Proof. reflexivity. Qed.

Lemma serveDelete_calls (ns name : string) (options : DeleteOptions)
  (w : World) :
  calls (snd (serveDelete ns name options w)) = calls w.
Proof.
  unfold serveDelete.
  destruct (deleteFault w ns name); [reflexivity|].
  destruct (lookupObject ns name (objects w)); [|reflexivity].
  destruct (uidMatches options t); reflexivity.
Qed.

Lemma newCalls_app (w w' : World) (cs : list Call) :
  calls w' = calls w ++ cs -> newCalls w w' = cs.
Proof.
  intros E. unfold newCalls. rewrite E.
  rewrite skipn_app, skipn_all, Nat.sub_diag. reflexivity.
Qed.

(** An expired verdict comes from an eligible run with a finish time, costs
    one reading of the clock and calls nobody. *)
Lemma processTrTTL_expired (tr : TaskRun) (w w1 : World) :
  processTrTTL tr w = ((true, None), w1) ->
  w1 = ticked w
  /\ cleanupEligible tr = true
  /\ exists f, taskRunFinishTime tr = inl f
              /\ Time_Add f (ttlOf tr) - clock w (ticks w) <= 0.
Proof.
  rewrite processTrTTL_unfold.
  destruct (cleanupEligible tr); [|discriminate].
  destruct (taskRunFinishTime tr) as [f|err]; [|discriminate].
  cbv zeta. rewrite Time_Sub_sign.
  destruct (Z.leb_spec (Time_Add f (ttlOf tr) - clock w (ticks w)) 0);
    [|discriminate].
  intros E. inversion E. split; [reflexivity|]. split; [reflexivity|].
  exists f. split; [reflexivity|assumption].
Qed.

Lemma processFresh_unfold (fresh : TaskRun) (w : World) :
  processFresh fresh w =
  if HasPipelineRunOwnerReference fresh then (None, w)
  else
    match processTrTTL fresh w with
    | ((_, Some err), w') => (Some err, w')
    | ((false, None), w') => (None, w')
    | ((true, None), w') =>
        Delete (Namespace fresh) (Name fresh) (deleteOptionsFor fresh) w'
    end.
Proof.
  unfold processFresh.
  destruct (HasPipelineRunOwnerReference fresh); [reflexivity|].
  unfold bind.
  destruct (processTrTTL fresh w) as [[[|] [err|]] w']; reflexivity.
Qed.

(** From the re-fetch on: what [processTaskRunExpired] does once the cached
    copy has been found expired. *)
Lemma processTaskRunExpired_refetch (ns name : string) (tr : TaskRun)
  (w w1 : World) :
  HasPipelineRunOwnerReference tr = false ->
  processTrTTL tr w = ((true, None), w1) ->
  processTaskRunExpired ns name tr w =
  match serveGet ns name w1 with
  | inr err =>
      (if IsNotFound (Some err) then None else Some err,
       logged (CallGet ns name) w1)
  | inl fresh => processFresh fresh (logged (CallGet ns name) w1)
  end.
Proof.
  intros Ho Hp. unfold processTaskRunExpired. rewrite Ho.
  unfold bind at 1. rewrite Hp.
  unfold bind. rewrite Get_unfold.
  change (serveGet ns name (logged (CallGet ns name) w1))
    with (serveGet ns name w1).
  destruct (serveGet ns name w1) as [fresh|err]; [reflexivity|].
  destruct (IsNotFound (Some err)); reflexivity.
Qed.

(** Before the re-fetch: the cached copy is owned, not eligible, not yet
    expired or broken. *)
Lemma processTaskRunExpired_early (ns name : string) (tr : TaskRun)
  (w : World) :
  HasPipelineRunOwnerReference tr = true
  \/ fst (fst (processTrTTL tr w)) = false ->
  processTaskRunExpired ns name tr w =
  if HasPipelineRunOwnerReference tr then (None, w)
  else (snd (fst (processTrTTL tr w)), snd (processTrTTL tr w)).
Proof.
  intros Hc. unfold processTaskRunExpired.
  destruct (HasPipelineRunOwnerReference tr); [reflexivity|].
  destruct Hc as [Hc|Hc]; [discriminate|].
  unfold bind.
  destruct (processTrTTL tr w) as [[[|] [err|]] w']; simpl in *;
    try reflexivity; discriminate.
Qed.

(** C1, as the code has it.  Once [processTaskRunExpired] has fetched the
    fresh copy: if the fresh copy is owned or no longer eligible,
    processing stops after the fetch and schedules no requeue; if the fresh
    copy is eligible and its TTL has not run out yet, the TTL check on the
    fresh copy schedules one deferred requeue for the time the fresh copy
    has left, and processing stops.  No delete is issued either way. *)
Theorem recheck_on_fresh_copy (ns name : string) (tr fresh : TaskRun)
  (w w1 : World) :
  HasPipelineRunOwnerReference tr = false ->
  processTrTTL tr w = ((true, None), w1) ->
  serveGet ns name w1 = inl fresh ->
  (HasPipelineRunOwnerReference fresh = true
   \/ cleanupEligible fresh = false ->
   exists w', processTaskRunExpired ns name tr w = (None, w')
              /\ newCalls w w' = [CallGet ns name])
  /\ (HasPipelineRunOwnerReference fresh = false ->
      cleanupEligible fresh = true ->
      forall f remaining,
        taskRunFinishTime fresh = inl f ->
        remaining = Time_Sub (Time_Add f (ttlOf fresh))
                             (clock w (S (ticks w))) ->
        0 < remaining ->
        exists w', processTaskRunExpired ns name tr w = (None, w')
                   /\ newCalls w w'
                      = [CallGet ns name;
                         CallEnqueueAfter (Namespace fresh) (Name fresh)
                                          remaining]).
Proof.
  intros Ho Hp Hg.
  rewrite (processTaskRunExpired_refetch _ _ _ _ _ Ho Hp), Hg.
  apply processTrTTL_expired in Hp as [-> _].
  rewrite processFresh_unfold, processTrTTL_unfold.
  split.
  - intros [Hf|Hf]; rewrite Hf.
    + eexists; split; [reflexivity|]. now apply newCalls_app.
    + destruct (HasPipelineRunOwnerReference fresh);
        (eexists; split; [reflexivity|]; now apply newCalls_app).
  - intros Hf He f remaining Hfin -> Hpos.
    rewrite Hf, He, Hfin. cbv zeta. simpl clock. simpl ticks.
    destruct (Z.leb_spec
                (Time_Sub (Time_Add f (ttlOf fresh)) (clock w (S (ticks w))))
                0); [lia|].
    eexists; split; [reflexivity|].
    apply newCalls_app. simpl. now rewrite <- app_assoc.
Qed.

(** ** The delete call (C6) *)

Lemma quietStep_refl (w : World) : quietStep w w.
Proof.
  split; [repeat split|]. exists []. now rewrite app_nil_r.
Qed.

Lemma quietStep_trans (w1 w2 w3 : World) :
  quietStep w1 w2 -> quietStep w2 w3 -> quietStep w1 w3.
Proof.
  intros [(Ho1 & Hg1 & Hd1) (cs1 & Hc1 & Hn1)]
         [(Ho2 & Hg2 & Hd2) (cs2 & Hc2 & Hn2)].
  split; [repeat split; congruence|].
  exists (cs1 ++ cs2). split.
  - rewrite Hc2, Hc1. now rewrite app_assoc.
  - unfold deletes in *. rewrite List.filter_app, Hn1, Hn2. reflexivity.
Qed.

Lemma quietStep_ticked (w : World) : quietStep w (ticked w).
Proof.
  split; [repeat split|]. exists []. simpl. now rewrite app_nil_r.
Qed.

Lemma quietStep_logged (c : Call) (w : World) :
  isDelete c = false -> quietStep w (logged c w).
Proof.
  intros Hc. split; [repeat split|]. exists [c]. split; [reflexivity|].
  unfold deletes. cbn [List.filter]. now rewrite Hc.
Qed.

Lemma quietStep_no_delete (w w' : World) (c : Call) :
  quietStep w w' -> In c (newCalls w w') -> isDelete c = false.
Proof.
  intros [_ (cs & Hc & Hn)] Hin.
  rewrite (newCalls_app _ _ _ Hc) in Hin.
  destruct (isDelete c) eqn:E; [|reflexivity].
  assert (In c (deletes cs)) as Hd by (apply filter_In; auto).
  rewrite Hn in Hd. destruct Hd.
Qed.

(** The TTL check never deletes and never touches the server. *)
Lemma processTrTTL_quiet (tr : TaskRun) (w : World) :
  quietStep w (snd (processTrTTL tr w)).
Proof.
  rewrite processTrTTL_unfold.
  destruct (cleanupEligible tr); [|apply quietStep_refl].
  destruct (taskRunFinishTime tr) as [f|err]; [|apply quietStep_ticked].
  cbv zeta. destruct (_ <=? 0); [apply quietStep_ticked|].
  eapply quietStep_trans; [apply quietStep_ticked|].
  now apply quietStep_logged.
Qed.

(** C6.  Every delete call that [processTaskRunExpired] issues comes after
    the cached copy was found expired and the server answered the fetch
    with a fresh copy; the call targets the namespace and the name of that
    fresh copy, asks for foreground propagation and carries the UID of the
    fresh copy as its precondition. *)
Theorem delete_call_shape (ns name : string) (tr : TaskRun) (w : World)
  (dns dname : string) (options : DeleteOptions) :
  In (CallDelete dns dname options)
     (newCalls w (snd (processTaskRunExpired ns name tr w))) ->
  exists fresh w1,
    processTrTTL tr w = ((true, None), w1)
    /\ serveGet ns name w1 = inl fresh
    /\ dns = Namespace fresh
    /\ dname = Name fresh
    /\ PropagationPolicy options = Some DeletePropagationForeground
    /\ DeletePreconditions options = Some {| PreUID := Some (UID fresh) |}.
Proof.
  intros Hin.
  assert (forall w', quietStep w w' ->
                     In (CallDelete dns dname options) (newCalls w w') ->
                     False) as Hquiet.
  { intros w' Hq Hi. now apply (quietStep_no_delete _ _ _ Hq) in Hi. }
  destruct (HasPipelineRunOwnerReference tr) eqn:Ho.
  { rewrite processTaskRunExpired_early in Hin by (now left).
    rewrite Ho in Hin. destruct (Hquiet w (quietStep_refl w) Hin). }
  destruct (processTrTTL tr w) as [[expired err] w1] eqn:Hp.
  assert (quietStep w w1) as Hq1.
  { pose proof (processTrTTL_quiet tr w) as Hq. now rewrite Hp in Hq. }
  destruct expired, err as [err|].
  - exfalso. rewrite processTrTTL_unfold in Hp.
    destruct (cleanupEligible tr); [|discriminate].
    destruct (taskRunFinishTime tr); [|discriminate].
    cbv zeta in Hp. destruct (_ <=? 0); discriminate.
  - rewrite (processTaskRunExpired_refetch _ _ _ _ _ Ho Hp) in Hin.
    assert (quietStep w (logged (CallGet ns name) w1)) as Hq2.
    { eapply quietStep_trans; [exact Hq1|]. now apply quietStep_logged. }
    destruct (serveGet ns name w1) as [fresh|gerr] eqn:Hg.
    2:{ destruct (Hquiet _ Hq2 Hin). }
    exists fresh, w1. split; [reflexivity|]. split; [exact Hg|].
    rewrite processFresh_unfold in Hin.
    destruct (HasPipelineRunOwnerReference fresh).
    { destruct (Hquiet _ Hq2 Hin). }
    pose proof (processTrTTL_quiet fresh (logged (CallGet ns name) w1))
      as Hq3.
    destruct (processTrTTL fresh (logged (CallGet ns name) w1))
      as [[expired' err'] w3].
    simpl in Hq3.
    assert (quietStep w w3) as Hq4 by (eapply quietStep_trans; eauto).
    destruct expired', err' as [err'|];
      try solve [destruct (Hquiet _ Hq4 Hin)].
    rewrite Delete_unfold in Hin.
    destruct Hq4 as [_ (cs & Hcs & Hnd)].
    rewrite (newCalls_app _ _
               (cs ++ [CallDelete (Namespace fresh) (Name fresh)
                                  (deleteOptionsFor fresh)])) in Hin.
    2:{ rewrite serveDelete_calls. simpl. rewrite Hcs.
        now rewrite app_assoc. }
    apply in_app_or in Hin as [Hin|Hin].
    { exfalso.
      assert (In (CallDelete dns dname options) (deletes cs)) as Hd
          by (apply filter_In; auto).
      rewrite Hnd in Hd. destruct Hd. }
    destruct Hin as [Hin|[]]. inversion Hin. subst.
    repeat split.
  - exfalso. apply Hquiet with (w' := w1); [exact Hq1|].
    rewrite processTaskRunExpired_early in Hin by (right; now rewrite Hp).
    now rewrite Ho, Hp in Hin.
  - exfalso. apply Hquiet with (w' := w1); [exact Hq1|].
    rewrite processTaskRunExpired_early in Hin by (right; now rewrite Hp).
    now rewrite Ho, Hp in Hin.
Qed.

(** When the fresh copy is found expired as well, that delete is issued,
    and its answer is what [processTaskRunExpired] returns. *)
Lemma delete_when_expired (ns name : string) (tr fresh : TaskRun)
  (w w1 w3 : World) :
  HasPipelineRunOwnerReference tr = false ->
  processTrTTL tr w = ((true, None), w1) ->
  serveGet ns name w1 = inl fresh ->
  HasPipelineRunOwnerReference fresh = false ->
  processTrTTL fresh (logged (CallGet ns name) w1) = ((true, None), w3) ->
  processTaskRunExpired ns name tr w
  = serveDelete (Namespace fresh) (Name fresh) (deleteOptionsFor fresh)
      (logged (CallDelete (Namespace fresh) (Name fresh)
                          (deleteOptionsFor fresh)) w3).
Proof.
  intros Ho Hp Hg Hof Hpf.
  rewrite (processTaskRunExpired_refetch _ _ _ _ _ Ho Hp), Hg.
  rewrite processFresh_unfold, Hof, Hpf. apply Delete_unfold.
Qed.

(** The UID precondition at work: against an object of the same name with
    another UID the delete is refused and the object stays. *)
Lemma delete_refused_on_other_uid (fresh stored : TaskRun) (w : World) :
  deleteFault w (Namespace fresh) (Name fresh) = None ->
  lookupObject (Namespace fresh) (Name fresh) (objects w) = Some stored ->
  UID stored <> UID fresh ->
  serveDelete (Namespace fresh) (Name fresh) (deleteOptionsFor fresh) w
  = (Some (conflict (Name fresh)), w).
Proof.
  intros Hf Hl Hu. unfold serveDelete. rewrite Hf, Hl.
  unfold uidMatches, deleteOptionsFor. simpl.
  destruct (String.eqb_spec (UID fresh) (UID stored)); [congruence|].
  reflexivity.
Qed.

(** ** Errors of the re-fetch (C7) *)

(** With the authoritative copy gone and the server answering, one run of
    [processTaskRunExpired] on a cached copy whose own TTL check does not
    fail returns no error, deletes nothing and leaves the server as it
    was. *)
Lemma newCalls_none (w w' : World) : calls w' = calls w -> newCalls w w' = [].
Proof. intros E. apply newCalls_app. rewrite E. now rewrite app_nil_r. Qed.

Lemma newCalls_one (w w' : World) (c : Call) :
  calls w' = calls w -> newCalls w (logged c w') = [c].
Proof. intros E. apply newCalls_app. simpl. now rewrite E. Qed.

Lemma newCalls_two (w w' w'' : World) (c c' : Call) :
  calls w' = calls w -> calls w'' = calls (logged c w') ->
  newCalls w (logged c' w'') = [c; c'].
Proof.
  intros E E'. apply newCalls_app. simpl. rewrite E'. simpl. rewrite E.
  now rewrite <- app_assoc.
Qed.

(** The four ways [processTrTTL] can go. *)
Lemma processTrTTL_result (tr : TaskRun) (w : World) :
  (cleanupEligible tr = false /\ processTrTTL tr w = ((false, None), w))
  \/ (cleanupEligible tr = true
      /\ exists err, taskRunFinishTime tr = inr err
                     /\ processTrTTL tr w = ((false, Some err), ticked w))
  \/ (cleanupEligible tr = true
      /\ exists f d, taskRunFinishTime tr = inl f
                     /\ ExpirationSecondsTTL tr = Some d
                     /\ f + d <= clock w (ticks w)
                     /\ processTrTTL tr w = ((true, None), ticked w))
  \/ (cleanupEligible tr = true
      /\ exists f d after,
          taskRunFinishTime tr = inl f
          /\ ExpirationSecondsTTL tr = Some d
          /\ clock w (ticks w) < f + d
          /\ after = Z.min (f + d - clock w (ticks w)) maxDuration
          /\ processTrTTL tr w
             = ((false, None),
                logged (CallEnqueueAfter (Namespace tr) (Name tr) after)
                       (ticked w))).
Proof.
  rewrite processTrTTL_unfold.
  destruct (cleanupEligible tr) eqn:He; [|now left].
  right.
  destruct (taskRunFinishTime tr) as [f|err]; [|left; eauto].
  right.
  pose proof He as Hc. apply cleanupEligible_true in Hc as [_ Hc].
  apply taskRunCleanup_true in Hc as (Httl & _).
  unfold ttlOf. destruct (ExpirationSecondsTTL tr) as [d|]; [|congruence].
  cbv zeta. rewrite Time_Sub_sign. unfold Time_Add.
  destruct (Z.leb_spec (f + d - clock w (ticks w)) 0).
  - left. split; [reflexivity|]. exists f, d. repeat split. lia.
  - right. split; [reflexivity|].
    exists f, d, (Z.min (f + d - clock w (ticks w)) maxDuration).
    repeat split; [lia|]. do 3 f_equal. rewrite Time_Sub_spec.
    unfold maxDuration, minDuration. lia.
Qed.

Lemma processTaskRunExpired_gone (ns name : string) (tr : TaskRun)
  (w : World) :
  getFault w ns name = None ->
  lookupObject ns name (objects w) = None ->
  (cleanupEligible tr = true -> exists f, taskRunFinishTime tr = inl f) ->
  exists w', processTaskRunExpired ns name tr w = (None, w')
             /\ quietStep w w'.
Proof.
  intros Hf Hl Hwf.
  destruct (HasPipelineRunOwnerReference tr) eqn:Ho.
  { rewrite processTaskRunExpired_early by (now left). rewrite Ho.
    eexists; split; [reflexivity|apply quietStep_refl]. }
  pose proof (processTrTTL_quiet tr w) as Hq.
  destruct (processTrTTL tr w) as [[expired err] w1] eqn:Hp.
  simpl in Hq.
  assert (err = None) as ->.
  { rewrite processTrTTL_unfold in Hp.
    destruct (cleanupEligible tr); [|congruence].
    destruct (Hwf eq_refl) as [f Hfin]. rewrite Hfin in Hp.
    cbv zeta in Hp. destruct (_ <=? 0); congruence. }
  destruct expired.
  - rewrite (processTaskRunExpired_refetch _ _ _ _ _ Ho Hp).
    destruct Hq as [(Hobj & Hgf & Hdf) Hcs].
    unfold serveGet. rewrite Hgf, Hf, Hobj, Hl. simpl.
    eexists; split; [reflexivity|].
    eapply quietStep_trans;
      [exact (conj (conj Hobj (conj Hgf Hdf)) Hcs)|].
    now apply quietStep_logged.
  - rewrite processTaskRunExpired_early by (right; now rewrite Hp).
    rewrite Ho, Hp. simpl.
    eexists; split; [reflexivity|exact Hq].
Qed.

(** The server's answer when the object is gone. *)
Lemma serveGet_gone (ns name : string) (w w' : World) :
  getFault w ns name = None ->
  lookupObject ns name (objects w) = None ->
  sameStore w w' ->
  serveGet ns name w' = inr (notFound name).
Proof.
  intros Hf Hl (Hobj & Hgf & _). unfold serveGet.
  now rewrite Hgf, Hf, Hobj, Hl.
Qed.

(** One run on a key whose authoritative copy is gone: the server is left
    as it is; the run fails exactly when the cached copy passes the guard
    of the TTL check and has no finish time, and then it has called
    nobody. *)
Lemma processTaskRunExpired_on_gone (ns name : string) (tr : TaskRun)
  (w : World) :
  getFault w ns name = None ->
  lookupObject ns name (objects w) = None ->
  exists w' cs,
    sameStore w w'
    /\ calls w' = calls w ++ cs
    /\ ((cleanupEligible tr = true
         /\ exists err, taskRunFinishTime tr = inr err
                        /\ processTaskRunExpired ns name tr w = (Some err, w')
                        /\ cs = [])
        \/ ((cleanupEligible tr = false
             \/ exists f, taskRunFinishTime tr = inl f)
            /\ processTaskRunExpired ns name tr w = (None, w')
            /\ requeueOrFetch ns name tr cs)).
Proof.
  intros Hf Hl.
  destruct (HasPipelineRunOwnerReference tr) eqn:Ho.
  { exists w, []. split; [repeat split|]. split; [now rewrite app_nil_r|].
    right. split; [|split].
    - left. destruct (cleanupEligible tr) eqn:He; [|reflexivity].
      apply cleanupEligible_true in He as [_ Hc].
      apply taskRunCleanup_true in Hc as (_ & _ & Hno). congruence.
    - rewrite processTaskRunExpired_early by (now left). now rewrite Ho.
    - now left. }
  destruct (processTrTTL_result tr w)
    as [[He Hp]|[[He (err & Herr & Hp)]|[[He (f & d & Hfin & _ & _ & Hp)]
       |[He (f & d & after & Hfin & _ & _ & _ & Hp)]]]].
  - exists w, []. split; [repeat split|]. split; [now rewrite app_nil_r|].
    right. split; [now left|]. split; [|now left].
    rewrite processTaskRunExpired_early by (right; now rewrite Hp).
    now rewrite Ho, Hp.
  - exists (ticked w), []. split; [repeat split|].
    split; [simpl; now rewrite app_nil_r|].
    left. split; [exact He|]. exists err. split; [exact Herr|].
    split; [|reflexivity].
    rewrite processTaskRunExpired_early by (right; now rewrite Hp).
    now rewrite Ho, Hp.
  - exists (logged (CallGet ns name) (ticked w)), [CallGet ns name].
    split; [repeat split|]. split; [reflexivity|].
    right. split; [right; now exists f|]. split; [|right; now right].
    rewrite (processTaskRunExpired_refetch _ _ _ _ _ Ho Hp).
    unfold serveGet. cbn [ticked getFault objects]. now rewrite Hf, Hl.
  - exists (logged (CallEnqueueAfter (Namespace tr) (Name tr) after)
                   (ticked w)),
           [CallEnqueueAfter (Namespace tr) (Name tr) after].
    split; [repeat split|]. split; [reflexivity|].
    right. split; [right; now exists f|].
    split; [|right; left; now exists after].
    rewrite processTaskRunExpired_early by (right; now rewrite Hp).
    now rewrite Ho, Hp.
Qed.

(** C7, as the code has it.  When the cached copy has been found expired
    and the server answers the re-fetch with an error:
    [processTaskRunExpired] returns no error on a not-found status error
    and returns the error itself on any other error; the fetch is the only
    call made and the server holds what it held.  Consequently, on a key
    whose authoritative copy is gone, two runs in a row leave the server as
    it is and delete nothing, and both give the same result.  That result
    is not always success: when the cached copy passes the guard of the TTL
    check and has no finish time, both runs return the error of
    [taskRunFinishTime] and call nobody.  In every other case both runs
    return no error, and each of them either does nothing, or schedules one
    deferred requeue of the cached copy, or makes the one fetch. *)
Theorem refetch_errors (ns name : string) (tr : TaskRun) (w : World) :
  (forall err,
      HasPipelineRunOwnerReference tr = false ->
      fst (processTrTTL tr w) = (true, None) ->
      serveGet ns name (ticked w) = inr err ->
      exists w',
        processTaskRunExpired ns name tr w
        = (match err with
           | StatusError StatusReasonNotFound _ => None
           | _ => Some err
           end, w')
        /\ newCalls w w' = [CallGet ns name]
        /\ sameStore w w')
  /\ (getFault w ns name = None ->
      lookupObject ns name (objects w) = None ->
      exists r wa wb,
        processTaskRunExpired ns name tr w = (r, wa)
        /\ processTaskRunExpired ns name tr wa = (r, wb)
        /\ sameStore w wb
        /\ deletes (newCalls w wb) = []
        /\ ((cleanupEligible tr = true
             /\ exists err, taskRunFinishTime tr = inr err
                            /\ r = Some err
                            /\ newCalls w wb = [])
            \/ ((cleanupEligible tr = false
                 \/ exists f, taskRunFinishTime tr = inl f)
                /\ r = None
                /\ requeueOrFetch ns name tr (newCalls w wa)
                /\ requeueOrFetch ns name tr (newCalls wa wb)))).
Proof.
  split.
  - intros err Ho Hp Hg.
    destruct (processTrTTL tr w) as [v w1] eqn:Hp1. simpl in Hp. subst v.
    rewrite (processTaskRunExpired_refetch _ _ _ _ _ Ho Hp1).
    apply processTrTTL_expired in Hp1 as [-> _]. rewrite Hg.
    exists (logged (CallGet ns name) (ticked w)).
    split; [|split; [now apply newCalls_app|repeat split]].
    f_equal. now destruct err as [| | |[] ?].
  - intros Hf Hl.
    destruct (processTaskRunExpired_on_gone ns name tr w Hf Hl)
      as (wa & cs1 & (Hobj & Hgf & Hdf) & Hcs1 & H1).
    destruct (processTaskRunExpired_on_gone ns name tr wa)
      as (wb & cs2 & (Hobj2 & Hgf2 & Hdf2) & Hcs2 & H2);
      [congruence|congruence|].
    assert (newCalls w wa = cs1) as Ea by now apply newCalls_app.
    assert (newCalls wa wb = cs2) as Eb by now apply newCalls_app.
    assert (newCalls w wb = cs1 ++ cs2) as Eab.
    { apply newCalls_app. now rewrite Hcs2, Hcs1, <- app_assoc. }
    assert (sameStore w wb) as Hsame.
    { repeat split; congruence. }
    destruct H1 as [(He & err & Herr & Hr1 & ->)
                   |(Hok & Hr1 & Hshape1)];
      destruct H2 as [(He2 & err2 & Herr2 & Hr2 & ->)
                     |(Hok2 & Hr2 & Hshape2)].
    + assert (err2 = err) as -> by congruence.
      exists (Some err), wa, wb.
      split; [exact Hr1|]. split; [exact Hr2|]. split; [exact Hsame|].
      split; [now rewrite Eab|].
      left. split; [exact He|]. exists err. now rewrite Eab.
    + exfalso. destruct Hok2 as [Hne|[f Hfin]]; congruence.
    + exfalso. destruct Hok as [Hne|[f Hfin]]; congruence.
    + exists None, wa, wb.
      split; [exact Hr1|]. split; [exact Hr2|]. split; [exact Hsame|].
      split.
      * rewrite Eab. unfold deletes. rewrite List.filter_app.
        destruct Hshape1 as [ -> | [ [a1 ->] | -> ] ];
          destruct Hshape2 as [ -> | [ [a2 ->] | -> ] ]; reflexivity.
      * right. split; [exact Hok|]. split; [reflexivity|].
        now rewrite Ea, Eb.
Qed.

(** ** A cleanup-eligible run without a finish time (C9) *)

(** A run whose deletion has been requested is left alone, whatever its
    conditions are. *)
Lemma deleting_run_skipped (ns name : string) (tr : TaskRun) (w : World) :
  DeletionTimestamp tr <> None ->
  processTaskRunExpired ns name tr w = (None, w).
Proof.
  intros Hd.
  assert (processTrTTL tr w = ((false, None), w)) as Hp.
  { rewrite processTrTTL_unfold. unfold cleanupEligible.
    destruct (DeletionTimestamp tr); [reflexivity|congruence]. }
  rewrite processTaskRunExpired_early by (right; now rewrite Hp).
  rewrite Hp. now destruct (HasPipelineRunOwnerReference tr).
Qed.

(** C9, as the code has it.  On a run whose deletion timestamp is unset and
    that [taskRunCleanup] claims is done, if the terminal condition is
    absent, or present with its last transition time unset,
    [processTaskRunExpired] returns the error of [taskRunFinishTime]; it
    has read the clock once and has called neither the queue nor the
    server. *)
Theorem missing_finish_time_surfaces (ns name : string) (tr : TaskRun)
  (w : World) :
  DeletionTimestamp tr = None ->
  taskRunCleanup tr = true ->
  terminalCondition tr = None
  \/ (exists con, terminalCondition tr = Some con
                  /\ Time_IsZero (LastTransitionTime con) = true) ->
  exists err,
    taskRunFinishTime tr = inr err
    /\ processTaskRunExpired ns name tr w = (Some err, ticked w)
    /\ newCalls w (ticked w) = [].
Proof.
  intros Hd Hcl Hc.
  assert (cleanupEligible tr = true) as He
      by now apply cleanupEligible_true.
  assert (exists err, taskRunFinishTime tr = inr err) as [err Herr].
  { rewrite taskRunFinishTime_find.
    destruct Hc as [->|(con & -> & ->)]; eexists; reflexivity. }
  exists err. split; [exact Herr|].
  assert (processTrTTL tr w = ((false, Some err), ticked w)) as Hp.
  { now rewrite processTrTTL_unfold, He, Herr. }
  split.
  - rewrite processTaskRunExpired_early by (right; now rewrite Hp).
    apply taskRunCleanup_true in Hcl as (_ & _ & ->).
    now rewrite Hp.
  - apply newCalls_app. simpl. now rewrite app_nil_r.
Qed.

(** The same on the fresh copy: when the re-fetch brings back an eligible
    run without a finish time, the error is returned and nothing is
    deleted. *)
Lemma missing_finish_time_on_fresh_copy (ns name : string)
  (tr fresh : TaskRun) (w w1 : World) (err : Error) :
  HasPipelineRunOwnerReference tr = false ->
  processTrTTL tr w = ((true, None), w1) ->
  serveGet ns name w1 = inl fresh ->
  cleanupEligible fresh = true ->
  taskRunFinishTime fresh = inr err ->
  processTaskRunExpired ns name tr w
  = (Some err, ticked (logged (CallGet ns name) w1)).
Proof.
  intros Ho Hp Hg He Herr.
  rewrite (processTaskRunExpired_refetch _ _ _ _ _ Ho Hp), Hg.
  rewrite processFresh_unfold, processTrTTL_unfold, He, Herr.
  apply cleanupEligible_true in He as [_ Hcl].
  apply taskRunCleanup_true in Hcl as (_ & _ & ->). reflexivity.
Qed.

End Properties.

(** The scenario of the spec from the finish time on: the same run, cached
    and stored, processed 61 seconds after it finished, is deleted. *)
Lemma delete_call_shape_witness :
  exists fresh w1,
    processTrTTL (H := specMethods) (finishedRun "uid-1" t2019 minute)
      (worldAt (t2019 + 61 * Second) [finishedRun "uid-1" t2019 minute])
    = ((true, None), w1)
    /\ serveGet "default" "build" w1 = inl fresh
    /\ "default" = Namespace fresh
    /\ "build" = Name fresh
    /\ PropagationPolicy
         {| PropagationPolicy := Some DeletePropagationForeground;
            DeletePreconditions := Some {| PreUID := Some "uid-1" |} |}
       = Some DeletePropagationForeground
    /\ DeletePreconditions
         {| PropagationPolicy := Some DeletePropagationForeground;
            DeletePreconditions := Some {| PreUID := Some "uid-1" |} |}
       = Some {| PreUID := Some (UID fresh) |}.
Proof.
  apply (delete_call_shape (H := specMethods) "default" "build"
           (finishedRun "uid-1" t2019 minute)
           (worldAt (t2019 + 61 * Second)
                    [finishedRun "uid-1" t2019 minute])).
  vm_compute. right. left. reflexivity.
Defined.

(** A run whose authoritative copy is gone, processed twice from a stale
    cache entry. *)
Lemma refetch_errors_witness :
  exists r wa wb,
    processTaskRunExpired (H := specMethods) "default" "build"
      (finishedRun "uid-1" t2019 minute) (worldAt (t2019 + 2 * minute) [])
    = (r, wa)
    /\ processTaskRunExpired (H := specMethods) "default" "build"
         (finishedRun "uid-1" t2019 minute) wa
       = (r, wb)
    /\ sameStore (worldAt (t2019 + 2 * minute) []) wb
    /\ deletes (newCalls (worldAt (t2019 + 2 * minute) []) wb) = []
    /\ ((cleanupEligible (H := specMethods)
           (finishedRun "uid-1" t2019 minute) = true
         /\ exists err,
             taskRunFinishTime (finishedRun "uid-1" t2019 minute) = inr err
             /\ r = Some err
             /\ newCalls (worldAt (t2019 + 2 * minute) []) wb = [])
        \/ ((cleanupEligible (H := specMethods)
               (finishedRun "uid-1" t2019 minute) = false
             \/ exists f,
                 taskRunFinishTime (finishedRun "uid-1" t2019 minute) = inl f)
            /\ r = None
            /\ requeueOrFetch "default" "build"
                 (finishedRun "uid-1" t2019 minute)
                 (newCalls (worldAt (t2019 + 2 * minute) []) wa)
            /\ requeueOrFetch "default" "build"
                 (finishedRun "uid-1" t2019 minute)
                 (newCalls wa wb))).
Proof.
  apply (proj2 (refetch_errors (H := specMethods) "default" "build"
                  (finishedRun "uid-1" t2019 minute)
                  (worldAt (t2019 + 2 * minute) []))).
  - reflexivity.
  - reflexivity.
Defined.

(** C7 as stated fails on a cached copy that is done, has a TTL and carries
    the zero time in its terminal condition: the authoritative copy is
    gone, and both runs in a row return the error of [taskRunFinishTime]
    instead of being a no-op without error.  Neither run gets as far as the
    re-fetch. *)
Lemma gone_run_without_finish_time :
  lookupObject "default" "build" (objects (worldAt t2019 [])) = None
  /\ processTaskRunExpired (H := specMethods) "default" "build"
       (finishedRun "uid-1" 0 minute) (worldAt t2019 [])
     = (Some (ErrFinishTimeUnset "default" "build"),
        ticked (worldAt t2019 []))
  /\ processTaskRunExpired (H := specMethods) "default" "build"
       (finishedRun "uid-1" 0 minute) (ticked (worldAt t2019 []))
     = (Some (ErrFinishTimeUnset "default" "build"),
        ticked (ticked (worldAt t2019 []))).
Proof. repeat split. Qed.

(** A succeeded run with a TTL whose terminal condition carries the zero
    time. *)
Lemma missing_finish_time_surfaces_witness :
  exists err,
    taskRunFinishTime (finishedRun "uid-1" 0 minute) = inr err
    /\ processTaskRunExpired (H := specMethods) "default" "build"
         (finishedRun "uid-1" 0 minute) (worldAt t2019 [])
       = (Some err, ticked (worldAt t2019 []))
    /\ newCalls (worldAt t2019 []) (ticked (worldAt t2019 [])) = [].
Proof.
  apply (missing_finish_time_surfaces (H := specMethods) "default" "build"
           (finishedRun "uid-1" 0 minute) (worldAt t2019 [])).
  - reflexivity.
  - reflexivity.
  - right. exists (succeededAt 0). split; reflexivity.
Defined.

(** C9 as stated fails on a run that is being deleted: [taskRunCleanup]
    claims it is done, its terminal condition carries the zero time, and
    [processTaskRunExpired] returns no error and does nothing, because the
    TTL check leaves alone the runs whose deletion timestamp is set. *)
Lemma deleting_run_without_finish_time :
  let tr := beingDeleted (finishedRun "uid-1" 0 minute) t2019 in
  let w := worldAt (t2019 + minute) [tr] in
  taskRunCleanup (H := specMethods) tr = true
  /\ terminalCondition tr = Some (succeededAt 0)
  /\ Time_IsZero (LastTransitionTime (succeededAt 0)) = true
  /\ processTaskRunExpired (H := specMethods) "default" "build" tr w
     = (None, w).
Proof. cbv zeta. repeat split. Qed.

(** C1 as stated fails on a TTL that was extended after the cache snapshot:
    the cached copy (TTL of one minute) is found expired two minutes after
    the finish time, the fresh copy (TTL of ten minutes) is not, and the
    check on the fresh copy schedules a requeue for the eight minutes
    left. *)
Lemma recheck_schedules_requeue :
  let cached := finishedRun "uid-1" t2019 minute in
  let fresh := finishedRun "uid-1" t2019 (10 * minute) in
  let w := worldAt (t2019 + 2 * minute) [fresh] in
  fst (processTrTTL (H := specMethods) cached w) = (true, None)
  /\ serveGet "default" "build" w = inl fresh
  /\ fst (processTrTTL (H := specMethods) fresh w) = (false, None)
  /\ fst (processTaskRunExpired (H := specMethods) "default" "build" cached w)
     = None
  /\ newCalls w (snd (processTaskRunExpired (H := specMethods)
                        "default" "build" cached w))
     = [CallGet "default" "build";
        CallEnqueueAfter "default" "build" (8 * minute)].
Proof. cbv zeta. repeat split; vm_compute; reflexivity. Qed.

Lemma recheck_on_fresh_copy_witness :
  exists w',
    processTaskRunExpired (H := specMethods) "default" "build"
      (finishedRun "uid-1" t2019 minute)
      (worldAt (t2019 + 2 * minute)
               [finishedRun "uid-1" t2019 (10 * minute)])
    = (None, w')
    /\ newCalls (worldAt (t2019 + 2 * minute)
                         [finishedRun "uid-1" t2019 (10 * minute)]) w'
       = [CallGet "default" "build";
          CallEnqueueAfter "default" "build" (8 * minute)].
Proof.
  refine (proj2 (recheck_on_fresh_copy (H := specMethods)
            "default" "build"
            (finishedRun "uid-1" t2019 minute)
            (finishedRun "uid-1" t2019 (10 * minute))
            (worldAt (t2019 + 2 * minute)
                     [finishedRun "uid-1" t2019 (10 * minute)])
            (ticked (worldAt (t2019 + 2 * minute)
                       [finishedRun "uid-1" t2019 (10 * minute)]))
            _ _ _) _ _ t2019 (8 * minute) _ _ _);
    try reflexivity.
Defined.

(** The TTL check of the scenario of the spec: TTL of one minute, checked
    thirty seconds after the finish time. *)
Lemma ttl_check_remaining_witness :
  processTrTTL (H := specMethods) (finishedRun "uid-1" t2019 minute)
               (worldAt (t2019 + 30 * Second) [])
  = ((false, None),
     logged (CallEnqueueAfter "default" "build" (30 * Second))
            (ticked (worldAt (t2019 + 30 * Second) []))).
Proof.
  refine (proj1 (proj1 (ttl_check_remaining (H := specMethods)
            (finishedRun "uid-1" t2019 minute)
            (worldAt (t2019 + 30 * Second) []) minute t2019
            _ _ _) _)).
  - reflexivity.
  - reflexivity.
  - reflexivity.
  - vm_compute. reflexivity.
Defined.

(** C3 as stated fails where the remaining time does not fit a
    [Duration]: a run kept for the longest TTL there is and checked one
    second before its recorded finish time has [f + d - t] one second above
    the largest duration; it is requeued after the largest duration. *)
Lemma ttl_check_remaining_saturates :
  let f := t2019 + Second in
  let d := maxDuration in
  let tr := finishedRun "uid-1" f d in
  let w := worldAt t2019 [] in
  cleanupEligible (H := specMethods) tr = true
  /\ ExpirationSecondsTTL tr = Some d
  /\ taskRunFinishTime tr = inl f
  /\ clock w (ticks w) < f + d
  /\ processTrTTL (H := specMethods) tr w
     = ((false, None),
        logged (CallEnqueueAfter "default" "build" maxDuration) (ticked w))
  /\ maxDuration <> f + d - clock w (ticks w).
Proof.
  cbv zeta. repeat split; try reflexivity.
  vm_compute. discriminate.
Qed.

Lemma cleanup_eligibility_witness :
  taskRunCleanup (H := specMethods)
    {| Namespace := "default"; Name := "build"; UID := "uid-1";
       DeletionTimestamp := None;
       OwnerReferences := [{| RefKind := "PipelineRun"; RefName := "p" |}];
       ExpirationSecondsTTL := Some minute;
       Conditions := [succeededAt t2019] |} = false
  /\ cleanupEligible (H := specMethods)
    {| Namespace := "default"; Name := "build"; UID := "uid-1";
       DeletionTimestamp := None;
       OwnerReferences := [{| RefKind := "PipelineRun"; RefName := "p" |}];
       ExpirationSecondsTTL := Some minute;
       Conditions := [succeededAt t2019] |} = false.
Proof.
  apply (proj2 (proj2 (cleanup_eligibility (H := specMethods) _))).
  reflexivity.
Defined.

Lemma should_not_be_cleaned_up_unreachable_witness :
  getFinishAndExpireTime (H := specMethods) (finishedRun "uid-1" t2019 minute)
  = inl (t2019, t2019 + minute).
Proof.
  apply (proj1 (proj2 (should_not_be_cleaned_up_unreachable
                         (H := specMethods)
                         (finishedRun "uid-1" t2019 minute)
                         (worldAt t2019 [])) eq_refl)).
Defined.

End TTLProofs.

(* ================================================================== *)
(** * Part IV: properties of the validator                              *)
(* ================================================================== *)

Module ValidationProofs.

Import TaskValidation.

Local Open Scope list_scope.

(** ** Loops with an early return are first-error searches *)

Lemma firstError_app {A} (chk : A -> option FieldError) (l1 l2 : list A) :
  firstError chk (l1 ++ l2) =
  match firstError chk l1 with
  | Some err => Some err
  | None => firstError chk l2
  end.
Proof.
  induction l1 as [|x l1 IH]; simpl; [reflexivity|].
  destruct (chk x); [reflexivity|exact IH].
Qed.

Lemma firstError_ext {A} (chk chk' : A -> option FieldError) (l : list A) :
  (forall x, chk x = chk' x) -> firstError chk l = firstError chk' l.
Proof.
  intros E. induction l as [|x l IH]; simpl; [reflexivity|].
  now rewrite E, IH.
Qed.

Lemma firstError_map {A B} (g : A -> B) (chk : B -> option FieldError)
  (l : list A) :
  firstError chk (map g l) = firstError (fun x => chk (g x)) l.
Proof.
  induction l as [|x l IH]; simpl; [reflexivity|]. now rewrite IH.
Qed.

Lemma firstError_flat_map {A B} (g : A -> list B)
  (chk : B -> option FieldError) (l : list A) :
  firstError chk (flat_map g l) = firstError (fun x => firstError chk (g x)) l.
Proof.
  induction l as [|x l IH]; simpl; [reflexivity|].
  now rewrite firstError_app, IH.
Qed.

Lemma forRange_indexed {A} (body : nat -> A -> option FieldError) (i : nat)
  (l : list A) :
  forRange i l body
  = firstError (fun ix => body (fst ix) (snd ix)) (indexedFrom i l).
Proof.
  revert i. induction l as [|x l IH]; intros i; simpl; [reflexivity|].
  now rewrite IH.
Qed.

Lemma forRange_each {A} (body : A -> option FieldError) (i : nat)
  (l : list A) :
  forRange i l (fun _ x => body x) = firstError body l.
Proof.
  revert i. induction l as [|x l IH]; intros i; simpl; [reflexivity|].
  now rewrite IH.
Qed.

(** A failing element makes the search fail; a search that fails found a
    failing element. *)
Lemma firstError_found {A} (chk : A -> option FieldError) (l : list A)
  (x : A) :
  In x l -> chk x <> None -> firstError chk l <> None.
Proof.
  induction l as [|y l IH]; simpl; [tauto|].
  intros [->|Hin] Hx.
  - destruct (chk x); [discriminate|congruence].
  - destruct (chk y); [discriminate|now apply IH].
Qed.

Lemma firstError_none {A} (chk : A -> option FieldError) (l : list A) :
  (forall x, In x l -> chk x = None) -> firstError chk l = None.
Proof.
  induction l as [|y l IH]; simpl; [reflexivity|].
  intros Hall. rewrite (Hall y) by now left.
  apply IH. intros x Hx. apply Hall. now right.
Qed.

(** The error of a search is the error of an element with nothing but
    passing elements before it. *)
Lemma firstError_first {A} (chk : A -> option FieldError) (l : list A)
  (err : FieldError) :
  firstError chk l = Some err ->
  exists before x after,
    l = before ++ x :: after
    /\ chk x = Some err
    /\ forall y, In y before -> chk y = None.
Proof.
  induction l as [|y l IH]; simpl; [discriminate|].
  destruct (chk y) as [e|] eqn:Ey.
  - intros [= ->]. exists [], y, l. repeat split; [assumption|].
    intros ? [].
  - intros Hl. destruct (IH Hl) as (before & x & after & -> & Hx & Hb).
    exists (y :: before), x, after. repeat split; [assumption|].
    intros z [<-|Hz]; [assumption|now apply Hb].
Qed.

Section AnySubstitution.

Context `{Substitution}.

(** ** The two passes of the analyzer (C5) *)

Lemma check_none (r : option FieldError) :
  match r with
  | Some err => Some err
  | None => None
  end = r.
Proof. now destruct r. Qed.

Lemma validateVariablesStep_walk (vars : gset string) (step : Step) :
  validateVariablesStep "params" vars step
  = firstError (undeclaredIn vars) (stepFields step).
Proof.
  unfold validateVariablesStep, stepFields.
  cbn [app firstError].
  rewrite !firstError_app, !firstError_map, firstError_flat_map.
  rewrite forRange_each, !forRange_indexed, check_none.
  reflexivity.
Qed.

Lemma validateArrayUsageStep_walk (vars : gset string) (step : Step) :
  validateArrayUsageStep "params" vars step
  = firstError (arrayMisuseIn vars) (stepFields step).
Proof.
  unfold validateArrayUsageStep, stepFields.
  cbn [app firstError].
  rewrite !firstError_app, !firstError_map, firstError_flat_map.
  rewrite forRange_each, !forRange_indexed, check_none.
  reflexivity.
Qed.

(** Each pass reports the first field of the walk that fails its check. *)
Lemma validateVariables_walk (steps : list Step) (vars : gset string) :
  validateVariables steps "params" vars
  = firstError (undeclaredIn vars) (walk steps).
Proof.
  unfold validateVariables, walk.
  rewrite check_none, forRange_each, firstError_flat_map.
  apply firstError_ext, validateVariablesStep_walk.
Qed.

Lemma validateArrayUsage_walk (steps : list Step) (vars : gset string) :
  validateArrayUsage steps "params" vars
  = firstError (arrayMisuseIn vars) (walk steps).
Proof.
  unfold validateArrayUsage, walk.
  rewrite check_none, forRange_each, firstError_flat_map.
  apply firstError_ext, validateArrayUsageStep_walk.
Qed.

(** C5, as the code has it.  The analyzer walks the fields twice, each time
    in the fixed order (steps in declaration order; within a step name,
    image, workingDir, command tokens, argument tokens, environment values,
    volume mounts).  It returns the first reference to an undeclared
    parameter found on the first walk; when there is none, it returns the
    first misuse of an array parameter (in a scalar field, or not isolated
    in a token) found on the second walk. *)
Theorem analyzer_two_passes (steps : list Step) (params : list ParamSpec) :
  validateParameterVariables steps params =
  match firstError (undeclaredIn (collectParameterNames params))
                   (walk steps) with
  | Some err => Some err
  | None =>
      firstError (arrayMisuseIn (collectArrayParameterNames params))
                 (walk steps)
  end.
Proof.
  unfold validateParameterVariables.
  rewrite validateVariables_walk.
  destruct (firstError (undeclaredIn (collectParameterNames params))
                       (walk steps)); [reflexivity|].
  apply validateArrayUsage_walk.
Qed.

(** The analyzer rejects a step list as soon as one field of the walk fails
    one of the two checks, and accepts it when every field passes both. *)
Lemma analyzer_rejects (steps : list Step) (params : list ParamSpec)
  (fld : Field) :
  In fld (walk steps) ->
  arrayMisuseIn (collectArrayParameterNames params) fld <> None ->
  validateParameterVariables steps params <> None.
Proof.
  intros Hin Hmis. unfold validateParameterVariables.
  destruct (validateVariables steps "params" (collectParameterNames params));
    [discriminate|].
  rewrite validateArrayUsage_walk. now apply (firstError_found _ _ fld).
Qed.

Lemma analyzer_accepts (steps : list Step) (params : list ParamSpec) :
  (forall fld, In fld (walk steps) ->
               undeclaredIn (collectParameterNames params) fld = None
               /\ arrayMisuseIn (collectArrayParameterNames params) fld
                  = None) ->
  validateParameterVariables steps params = None.
Proof.
  intros Hall. unfold validateParameterVariables.
  rewrite validateVariables_walk, validateArrayUsage_walk.
  rewrite firstError_none by (intros fld Hin; apply (Hall fld Hin)).
  apply firstError_none. intros fld Hin. apply (Hall fld Hin).
Qed.

End AnySubstitution.

(** C5 as stated fails on a step with two violations: the name of the step
    refers to an array parameter (a violation at the first field of the
    walk), its image refers to an undeclared parameter (a violation at the
    second field).  A single walk would report the name; the analyzer
    reports the image, because its first pass looks for undeclared
    references only. *)
Lemma analyzer_reports_later_field :
  map FieldName (walk [twoViolations]) = ["name"; "image"; "workingDir"]
  /\ option_map Paths
       (arrayMisuseIn (H := specSubstitution)
          (collectArrayParameterNames [listParam])
          (mkField "name" "$(params.list)" ScalarContext))
     = Some ["taskspec.steps.name"]
  /\ option_map Paths
       (firstViolationInWalk (H := specSubstitution)
          [twoViolations] [listParam])
     = Some ["taskspec.steps.name"]
  /\ option_map Paths
       (validateParameterVariables (H := specSubstitution)
          [twoViolations] [listParam])
     = Some ["taskspec.steps.image"].
Proof. repeat split; vm_compute; reflexivity. Qed.

(** ** The place of the analysis in the validator (C4) *)

Section Place.

Context {TaskResources : Type} `{Collaborators TaskResources}.

Lemma ViaField_none (fe : option FieldError) (prefix : string) :
  ViaField fe prefix = None <-> fe = None.
Proof. destruct fe; simpl; split; congruence. Qed.

Lemma nonEmpty_false {A} (l : list A) : nonEmpty l = false <-> l = [].
Proof. destruct l; simpl; split; congruence. Qed.

Lemma isZeroTaskSpec_steps (ts : TaskSpec TaskResources) :
  isZeroTaskSpec ts = true -> Steps ts = [].
Proof.
  unfold isZeroTaskSpec.
  destruct (Resources ts), (StepTemplate ts); try discriminate.
  rewrite !andb_true_iff, !negb_true_iff.
  intros [[_ Hs] _]. now apply nonEmpty_false.
Qed.

(** C4.  Take a merge that succeeds and leaves the merged steps in the
    slice [ts.Steps] it was handed, as the merge of the template into each
    step does.  Then the variable usage analysis is the last check of
    [TaskSpec.Validate]: when the task has a step, its volumes pass, the
    merged steps pass [validateSteps], the resources pass, the parameter
    types pass and the step names pass, the result of the validator is the
    result of the analysis of the merged steps with the declared
    parameters; when one of those fails, the validator returns an error
    that no substitution package can change, so the analysis had no part in
    it. *)
Theorem analysis_runs_last (ts : TaskSpec TaskResources)
  (merged : list Step) :
  MergeStepsWithStepTemplate (StepTemplate ts) (Steps ts)
  = (inl merged, merged) ->
  (Steps ts <> []
   /\ ValidateVolumes (Volumes ts) = None
   /\ validateSteps merged = None
   /\ ResourcesValidate (Resources ts) = None
   /\ validateParameterTypes (Params ts) = None
   /\ validateStepNames merged = None ->
   forall S : Substitution,
     @Validate TaskResources S _ ts
     = @validateParameterVariables S merged (Params ts))
  /\ (~ (Steps ts <> []
         /\ ValidateVolumes (Volumes ts) = None
         /\ validateSteps merged = None
         /\ ResourcesValidate (Resources ts) = None
         /\ validateParameterTypes (Params ts) = None
         /\ validateStepNames merged = None) ->
      exists err, forall S : Substitution,
          @Validate TaskResources S _ ts = Some err).
Proof.
  intros Hmerge. split.
  - intros (Hs & Hv & Hm & Hr & Hp & Hn) S. unfold Validate.
    destruct (isZeroTaskSpec ts) eqn:Hz.
    { apply isZeroTaskSpec_steps in Hz. contradiction. }
    destruct (Steps ts) as [|s steps] eqn:Es; [contradiction|].
    cbn [length Nat.eqb]. rewrite Hmerge, Hv, Hm, Hr, Hp, Hn.
    cbn [ViaField]. apply check_none.
  - intros Hnot. unfold Validate.
    destruct (isZeroTaskSpec ts) eqn:Hz; [eexists; reflexivity|].
    destruct (Steps ts) as [|s steps] eqn:Es; [eexists; reflexivity|].
    cbn [length Nat.eqb]. rewrite Hmerge.
    destruct (ValidateVolumes (Volumes ts)) eqn:Hv;
      [eexists; reflexivity|].
    destruct (validateSteps merged) eqn:Hm; [eexists; reflexivity|].
    cbn [ViaField].
    destruct (ResourcesValidate (Resources ts)) eqn:Hr;
      [eexists; reflexivity|].
    destruct (validateParameterTypes (Params ts)) eqn:Hp;
      [eexists; reflexivity|].
    destruct (validateStepNames merged) eqn:Hn; [eexists; reflexivity|].
    exfalso. apply Hnot. repeat split; congruence.
Qed.

End Place.

(** The task of the example: its step template brings a working directory
    that refers to an undeclared parameter, the merge writes it into the
    step, and the analysis of the merged steps reports it. *)
Lemma analysis_runs_last_witness :
  @Validate unit specSubstitution plainCollaborators templatedTask
  = validateParameterVariables (H := specSubstitution)
      (mergedWith (StepTemplate templatedTask) (Steps templatedTask))
      (Params templatedTask)
  /\ option_map Paths
       (@Validate unit specSubstitution plainCollaborators templatedTask)
     = Some ["taskspec.steps.workingDir"].
Proof.
  split; [|reflexivity].
  apply (proj1 (@analysis_runs_last unit plainCollaborators templatedTask
                  (mergedWith (StepTemplate templatedTask)
                              (Steps templatedTask))
                  eq_refl)).
  repeat split; solve [discriminate | reflexivity].
Defined.

(** ** References in a text *)

Lemma chars_append (a b : string) : chars (a +:+ b) = chars a ++ chars b.
Proof.
  induction a as [|c a IH]; simpl; [reflexivity|].
  unfold chars in *. simpl. now rewrite IH.
Qed.

Lemma chars_of_list (l : list ascii) : chars (string_of_list_ascii l) = l.
Proof. apply list_ascii_of_string_of_list_ascii. Qed.

Lemma string_of_chars (s : string) : string_of_list_ascii (chars s) = s.
Proof. apply string_of_list_ascii_of_string. Qed.

Lemma chars_reference (prefix name : string) :
  chars (reference prefix name)
  = opening prefix ++ chars name ++ [")"%char].
Proof. apply chars_of_list. Qed.

Lemma stripPrefix_app (p s : list ascii) : stripPrefix p (p ++ s) = Some s.
Proof.
  induction p as [|a p IH]; simpl; [now destruct s|].
  now rewrite Ascii.eqb_refl.
Qed.

Lemma stripPrefix_sound (p s r : list ascii) :
  stripPrefix p s = Some r -> s = p ++ r.
Proof.
  revert s. induction p as [|a p IH]; intros s; simpl.
  - destruct s; intros [= ->]; reflexivity.
  - destruct s as [|b s]; [discriminate|].
    destruct (Ascii.eqb_spec a b) as [->|]; [|discriminate].
    intros Hs. now rewrite (IH _ Hs).
Qed.

Lemma spanName_app (n : list ascii) (c : ascii) (r : list ascii) :
  forallb isNameChar n = true ->
  isNameChar c = false ->
  spanName (n ++ c :: r) = (n, c :: r).
Proof.
  intros Hn Hc. induction n as [|a n IH]; simpl.
  - now rewrite Hc.
  - simpl in Hn. apply andb_true_iff in Hn as [Ha Hn].
    now rewrite Ha, (IH Hn).
Qed.

Lemma spanName_sound (s n r : list ascii) :
  spanName s = (n, r) -> s = n ++ r /\ forallb isNameChar n = true.
Proof.
  revert n r. induction s as [|a s IH]; intros n r; simpl.
  - intros [= <- <-]. now split.
  - destruct (isNameChar a) eqn:Ha.
    + destruct (spanName s) as [n' r'] eqn:Hs. intros [= <- <-].
      destruct (IH _ _ eq_refl) as [-> Hn]. simpl. now rewrite Ha.
    + intros [= <- <-]. now split.
Qed.

Lemma close_not_name : isNameChar ")"%char = false.
Proof. reflexivity. Qed.

Lemma dollar_not_name : isNameChar "$"%char = false.
Proof. reflexivity. Qed.

(** A well-formed reference at the start of a text is matched, with its
    name. *)
Lemma matchReference_here (prefix : string) (p post : list ascii) :
  nonEmpty p && forallb isNameChar p = true ->
  matchReference prefix (opening prefix ++ p ++ ")"%char :: post)
  = Some (p, post).
Proof.
  intros Hp. apply andb_true_iff in Hp as [Hne Hall].
  unfold matchReference. rewrite stripPrefix_app.
  rewrite (spanName_app _ _ _ Hall close_not_name).
  destruct p; [discriminate|]. reflexivity.
Qed.

(** What a match says about the text. *)
Lemma matchReference_sound (prefix : string) (s name rest : list ascii) :
  matchReference prefix s = Some (name, rest) ->
  s = opening prefix ++ name ++ ")"%char :: rest
  /\ forallb isNameChar name = true.
Proof.
  unfold matchReference.
  destruct (stripPrefix (opening prefix) s) as [afterOpening|] eqn:Hs;
    [|discriminate].
  apply stripPrefix_sound in Hs. subst s.
  destruct (spanName afterOpening) as [n r] eqn:Hn.
  apply spanName_sound in Hn as [-> Hall].
  destruct n as [|c n]; [discriminate|].
  destruct r as [|close r]; [discriminate|].
  destruct (Ascii.eqb_spec close ")"%char) as [->|]; [|discriminate].
  intros [= <- <-]. now split.
Qed.

(** Two texts that agree, one of them free of [x] up to a point where the
    other has [x]: the first one ends before that point. *)
Lemma split_before {A} (x : A) (a b c d : list A) :
  ~ In x a -> a ++ b = c ++ x :: d -> exists l, b = l ++ x :: d.
Proof.
  revert c. induction a as [|y a IH]; intros c Hx E; simpl in *.
  - now exists c.
  - destruct c as [|z c]; simpl in E.
    + injection E as -> _. tauto.
    + injection E as _ E. apply (IH c); tauto.
Qed.

Lemma name_chars_no_dollar (n : list ascii) :
  forallb isNameChar n = true -> ~ In "$"%char n.
Proof.
  intros Hall Hin. rewrite forallb_forall in Hall.
  apply Hall in Hin. discriminate.
Qed.

Lemma scanReferences_nil (fuel : nat) (prefix : string) :
  scanReferences fuel prefix [] = [].
Proof. destruct fuel; reflexivity. Qed.

(** The scan never runs out of fuel: any fuel above the length of the text
    gives the same names. *)
Lemma scanReferences_fuel (prefix : string) (fuel fuel' : nat)
  (s : list ascii) :
  (length s < fuel)%nat -> (length s < fuel')%nat ->
  scanReferences fuel prefix s = scanReferences fuel' prefix s.
Proof.
  revert fuel' s. induction fuel as [|fuel IH]; intros fuel' s Hf Hf'; [lia|].
  destruct fuel' as [|fuel']; [lia|].
  cbn [scanReferences].
  destruct (matchReference prefix s) as [[name rest]|] eqn:Hm.
  - apply matchReference_sound in Hm as [-> _].
    assert (length rest
            < length (opening prefix ++ name ++ ")"%char :: rest))%nat
      by (rewrite !length_app; cbn [length]; lia).
    f_equal. apply IH; lia.
  - destruct s as [|c s]; [reflexivity|].
    cbn [length] in Hf, Hf'. apply IH; lia.
Qed.

(** A well-formed reference is found wherever it stands in a text. *)
Lemma scanReferences_finds (prefix : string) (p post : list ascii) :
  nonEmpty p && forallb isNameChar p = true ->
  ~ In "$"%char (chars prefix) ->
  forall fuel pre,
    (length (pre ++ opening prefix ++ p ++ ")"%char :: post) < fuel)%nat ->
    In (string_of_list_ascii p)
       (scanReferences fuel prefix
          (pre ++ opening prefix ++ p ++ ")"%char :: post)).
Proof.
  intros Hp Hprefix.
  induction fuel as [|fuel IH]; intros pre Hlen; [lia|].
  cbn [scanReferences].
  destruct (matchReference prefix
              (pre ++ opening prefix ++ p ++ ")"%char :: post))
    as [[name rest]|] eqn:Hm.
  - destruct pre as [|c pre].
    + cbn [app] in Hm. rewrite (matchReference_here _ _ _ Hp) in Hm.
      injection Hm as <- <-. now left.
    + right. apply matchReference_sound in Hm as [E Hname].
      unfold opening in E. cbn [app] in E. injection E as _ E.
      assert ((("("%char :: chars prefix ++ ["."%char]) ++ name
               ++ [")"%char]) ++ rest
              = pre ++ "$"%char
                :: ("("%char :: (chars prefix ++ ["."%char]) ++ p
                    ++ ")"%char :: post)) as Ea.
      { rewrite E. cbn [app]. rewrite <- !app_assoc. reflexivity. }
      apply split_before in Ea as [l ->].
      2:{ intros Hd. repeat (rewrite in_app_iff in Hd; simpl in Hd).
          destruct Hd as [[Hd|[Hd|[Hd|[]]]]|[Hd|[Hd|[]]]];
            try discriminate; [tauto|].
          now apply name_chars_no_dollar in Hd. }
      apply IH.
      apply (f_equal (@length ascii)) in E.
      unfold opening in *. cbn [app length] in *.
      repeat (rewrite length_app in *; cbn [length] in * ).
      lia.
  - destruct pre as [|c pre].
    + cbn [app] in Hm. rewrite (matchReference_here _ _ _ Hp) in Hm.
      discriminate.
    + cbn [app]. apply IH. cbn [app length] in Hlen. lia.
Qed.

Lemma isParameterName_chars (p : string) :
  isParameterName p = true ->
  nonEmpty (chars p) && forallb isNameChar (chars p) = true.
Proof. trivial. Qed.

(** A reference to [p] is found in any text that contains it. *)
Lemma extract_finds (prefix p pre post : string) :
  isParameterName p = true ->
  ~ In "$"%char (chars prefix) ->
  In p (extractVariablesFromString (pre +:+ reference prefix p +:+ post)
                                   prefix).
Proof.
  intros Hp Hprefix. unfold extractVariablesFromString.
  rewrite !chars_append, chars_reference.
  replace (chars pre ++ (opening prefix ++ chars p ++ [")"%char])
           ++ chars post)
    with (chars pre ++ opening prefix ++ chars p ++ ")"%char :: chars post)
    by (now rewrite <- !app_assoc).
  rewrite <- (string_of_chars p) at 1.
  apply (scanReferences_finds prefix (chars p) (chars post) Hp Hprefix).
  lia.
Qed.

(** A text that is one reference refers to its name and nothing else. *)
Lemma extract_reference (prefix p : string) :
  isParameterName p = true ->
  extractVariablesFromString (reference prefix p) prefix = [p].
Proof.
  intros Hp. unfold extractVariablesFromString.
  rewrite chars_reference. cbn [scanReferences].
  rewrite (matchReference_here _ _ _ Hp).
  now rewrite scanReferences_nil, string_of_chars.
Qed.

(** ** The sets of declared names *)

Lemma elem_of_collectParameterNames (params : list ParamSpec) (x : string) :
  x ∈ collectParameterNames params
  <-> exists prm, In prm params /\ ParamName prm = x.
Proof.
  unfold collectParameterNames.
  assert (forall acc : gset string,
             x ∈ fold_left (fun names p => {[ParamName p]} ∪ names)
                   params acc
             <-> x ∈ acc \/ exists prm, In prm params /\ ParamName prm = x)
    as Hgen.
  { induction params as [|q params IH]; intros acc; simpl.
    - split; [tauto|]. intros [Hx|(prm & [] & _)]. exact Hx.
    - rewrite IH, elem_of_union, elem_of_singleton. split.
      + intros [[->|Hx]|(prm & Hin & E)]; eauto.
      + intros [Hx|(prm & [<-|Hin] & E)]; eauto. }
  rewrite Hgen. split; [|tauto].
  intros [Hx|Hx]; [|exact Hx]. now apply not_elem_of_empty in Hx.
Qed.

Lemma elem_of_collectArrayParameterNames (params : list ParamSpec)
  (x : string) :
  x ∈ collectArrayParameterNames params <-> declaredArray params x.
Proof.
  unfold collectArrayParameterNames, declaredArray.
  assert (forall acc : gset string,
             x ∈ fold_left (fun names p =>
                              if String.eqb (ParamType p) ParamTypeArray
                              then {[ParamName p]} ∪ names
                              else names) params acc
             <-> x ∈ acc
                 \/ exists prm, In prm params /\ ParamName prm = x
                                /\ ParamType prm = ParamTypeArray)
    as Hgen.
  { induction params as [|q params IH]; intros acc; simpl.
    - split; [tauto|]. intros [Hx|(prm & [] & _)]. exact Hx.
    - rewrite IH.
      destruct (String.eqb_spec (ParamType q) ParamTypeArray) as [Eq|Nq].
      + rewrite elem_of_union, elem_of_singleton. split.
        * intros [[->|Hx]|(prm & Hin & E)]; eauto 6.
        * intros [Hx|(prm & [<-|Hin] & E & Et)]; eauto 6.
      + split.
        * intros [Hx|(prm & Hin & E)]; eauto 6.
        * intros [Hx|(prm & [<-|Hin] & E & Et)]; eauto 6. congruence. }
  rewrite Hgen. split; [|tauto].
  intros [Hx|Hx]; [|exact Hx]. now apply not_elem_of_empty in Hx.
Qed.

(** ** The fields of a step and their kinds *)

Lemma In_indexedFrom {A} (x : A) (l : list A) (k : nat) :
  In x l -> exists i, In (i, x) (indexedFrom k l).
Proof.
  revert k. induction l as [|y l IH]; intros k; simpl; [tauto|].
  intros [->|Hin]; [exists k; now left|].
  destruct (IH (S k) Hin) as [i Hi]. exists i. now right.
Qed.

Lemma scalarFieldOf_walk (step : Step) (v : string) :
  scalarFieldOf step v ->
  exists fld, In fld (stepFields step)
              /\ FieldCtx fld = ScalarContext
              /\ FieldValue fld = v.
Proof.
  unfold scalarFieldOf, stepFields.
  intros [<-|[<-|[<-|[(env & Hin & <-)|(vm & Hin & Hv)]]]].
  - eexists. split; [left; reflexivity|]. now split.
  - eexists. split; [right; left; reflexivity|]. now split.
  - eexists. split; [right; right; left; reflexivity|]. now split.
  - exists (mkField ("env[" +:+ EnvName env +:+ "]") (EnvValue env)
                    ScalarContext).
    split; [|now split].
    cbn [app]. do 3 right. rewrite !in_app_iff. do 2 right. left.
    apply in_map_iff. now exists env.
  - destruct (In_indexedFrom vm _ 0 Hin) as [i Hi].
    assert (forall fld,
               In fld
                  [mkField ("volumeMount[" +:+ showNat i +:+ "].Name")
                           (MountName vm) ScalarContext;
                   mkField ("volumeMount[" +:+ showNat i +:+ "].MountPath")
                           (MountPath vm) ScalarContext;
                   mkField ("volumeMount[" +:+ showNat i +:+ "].SubPath")
                           (SubPath vm) ScalarContext] ->
               In fld (stepFields step)) as Hall.
    { intros fld Hfld. unfold stepFields. cbn [app]. do 3 right.
      rewrite !in_app_iff. do 3 right.
      apply in_flat_map. exists (i, vm). now split. }
    destruct Hv as [<-|[<-|<-]].
    + exists (mkField ("volumeMount[" +:+ showNat i +:+ "].Name")
                      (MountName vm) ScalarContext).
      split; [apply Hall; simpl; auto|now split].
    + exists (mkField ("volumeMount[" +:+ showNat i +:+ "].MountPath")
                      (MountPath vm) ScalarContext).
      split; [apply Hall; simpl; auto|now split].
    + exists (mkField ("volumeMount[" +:+ showNat i +:+ "].SubPath")
                      (SubPath vm) ScalarContext).
      split; [apply Hall; simpl; auto|now split].
Qed.

Lemma tokenOf_walk (step : Step) (v : string) :
  tokenOf step v ->
  exists fld, In fld (stepFields step)
              /\ FieldCtx fld = ArrayEligibleContext
              /\ FieldValue fld = v.
Proof.
  unfold tokenOf, stepFields. intros [Hin|Hin].
  - destruct (In_indexedFrom v _ 0 Hin) as [i Hi].
    exists (mkField ("command[" +:+ showNat i +:+ "]") v
                    ArrayEligibleContext).
    split; [|now split]. cbn [app]. do 3 right.
    rewrite !in_app_iff. left.
    apply in_map_iff. now exists (i, v).
  - destruct (In_indexedFrom v _ 0 Hin) as [i Hi].
    exists (mkField ("arg[" +:+ showNat i +:+ "]") v ArrayEligibleContext).
    split; [|now split]. cbn [app]. do 3 right.
    rewrite !in_app_iff. right. left.
    apply in_map_iff. now exists (i, v).
Qed.

Lemma In_walk (steps : list Step) (step : Step) (fld : Field) :
  In step steps -> In fld (stepFields step) -> In fld (walk steps).
Proof. intros Hs Hf. apply in_flat_map. now exists step. Qed.

(** ** The checks of the substitution package, as modelled *)

Lemma params_no_dollar : ~ In "$"%char (chars "params").
Proof. simpl. intuition discriminate. Qed.

Lemma inSet_true (v : string) (vars : gset string) :
  inSet v vars = true <-> v ∈ vars.
Proof. apply bool_decide_eq_true. Qed.

Lemma prohibited_rejects (name value : string) (vars : gset string)
  (p : string) :
  In p (extractVariablesFromString value "params") ->
  p ∈ vars ->
  validateTaskNoArrayReferenced (H := specSubstitution)
    name value "params" vars <> None.
Proof.
  intros Hin Hp.
  unfold validateTaskNoArrayReferenced. simpl.
  unfold ValidateVariableProhibited_spec.
  change ("" +:+ "params") with "params".
  assert (existsb (fun v => inSet v vars)
                  (extractVariablesFromString value "params") = true) as ->.
  { apply existsb_exists. exists p. split; [exact Hin|].
    now apply inSet_true. }
  discriminate.
Qed.

Lemma isolated_rejects (name value : string) (vars : gset string)
  (p : string) :
  In p (extractVariablesFromString value "params") ->
  p ∈ vars ->
  value <> reference "params" p ->
  validateTaskArraysIsolated (H := specSubstitution)
    name value "params" vars <> None.
Proof.
  intros Hin Hp Hne.
  unfold validateTaskArraysIsolated. simpl.
  unfold ValidateVariableIsolated_spec.
  change ("" +:+ "params") with "params".
  assert (existsb (fun v =>
                     inSet v vars
                     && negb (String.eqb value (reference "params" v)))
                  (extractVariablesFromString value "params") = true) as ->.
  { apply existsb_exists. exists p. split; [exact Hin|].
    apply andb_true_iff. split; [now apply inSet_true|].
    apply negb_true_iff. now apply String.eqb_neq. }
  discriminate.
Qed.

Lemma chars_nil (s : string) : chars s = [] -> s = "".
Proof. now destruct s. Qed.

(** A reference with text around it is not the whole text. *)
Lemma surrounded_not_whole (prefix p pre post : string) :
  pre +:+ post <> "" ->
  pre +:+ reference prefix p +:+ post <> reference prefix p.
Proof.
  intros Hne E. apply Hne.
  apply (f_equal chars) in E. rewrite !chars_append in E.
  apply (f_equal (@length ascii)) in E. rewrite !length_app in E.
  apply chars_nil. rewrite chars_append.
  destruct (chars pre); [|simpl in E; lia].
  destruct (chars post); [reflexivity|simpl in E; lia].
Qed.

(** The token checks of both passes let an exact reference to a declared
    array parameter through. *)
Lemma exact_reference_passes (params : list ParamSpec) (p name : string) :
  declaredArray params p ->
  isParameterName p = true ->
  validateTaskVariable (H := specSubstitution) name (reference "params" p)
    "params" (collectParameterNames params) = None
  /\ validateTaskArraysIsolated (H := specSubstitution) name
       (reference "params" p) "params" (collectArrayParameterNames params)
     = None.
Proof.
  intros Hdecl Hp.
  assert (p ∈ collectParameterNames params) as Hn.
  { apply elem_of_collectParameterNames.
    destruct Hdecl as (prm & Hin & E & _). eauto. }
  apply inSet_true in Hn.
  unfold validateTaskVariable, validateTaskArraysIsolated. simpl.
  unfold ValidateVariable_spec, ValidateVariableIsolated_spec.
  change ("" +:+ "params") with "params".
  rewrite (extract_reference "params" p Hp).
  cbn [existsb]. rewrite Hn, String.eqb_refl.
  rewrite andb_false_r. now split.
Qed.

Lemma no_reference_passes (fld : Field) (names arrayNames : gset string) :
  extractVariablesFromString (FieldValue fld) "params" = [] ->
  undeclaredIn (H := specSubstitution) names fld = None
  /\ arrayMisuseIn (H := specSubstitution) arrayNames fld = None.
Proof.
  intros E. unfold undeclaredIn, arrayMisuseIn.
  unfold validateTaskVariable, validateTaskNoArrayReferenced,
    validateTaskArraysIsolated. simpl.
  unfold ValidateVariable_spec, ValidateVariableProhibited_spec,
    ValidateVariableIsolated_spec.
  change ("" +:+ "params") with "params". rewrite E.
  split; [reflexivity|]. now destruct (FieldCtx fld).
Qed.

(** ** Array parameters in scalar fields and in tokens (C8) *)

(** C8.  Let [p] be a declared parameter of array type (with a name that a
    placeholder can hold).  A step with a reference to [p] inside a
    scalar-context field (name, image, workingDir, an environment value, a
    volume-mount name, path or sub-path) is rejected by the analyzer,
    whatever text surrounds the reference.  A step with a command or
    argument token that holds the reference together with any other text
    (literal text or another reference, before or after) is rejected.  A
    token that is the reference and nothing else passes the token checks of
    both passes, and a step list in which every field either holds no
    reference or is a token equal to the reference is accepted. *)
Theorem array_parameter_contexts (params : list ParamSpec) (p : string) :
  declaredArray params p ->
  isParameterName p = true ->
  (forall steps step pre post,
      In step steps ->
      scalarFieldOf step (pre +:+ reference "params" p +:+ post) ->
      validateParameterVariables (H := specSubstitution) steps params
      <> None)
  /\ (forall steps step pre post,
         In step steps ->
         tokenOf step (pre +:+ reference "params" p +:+ post) ->
         pre +:+ post <> "" ->
         validateParameterVariables (H := specSubstitution) steps params
         <> None)
  /\ (forall name,
         validateTaskVariable (H := specSubstitution) name
           (reference "params" p) "params" (collectParameterNames params)
         = None
         /\ validateTaskArraysIsolated (H := specSubstitution) name
              (reference "params" p) "params"
              (collectArrayParameterNames params)
            = None)
  /\ (forall steps,
         (forall fld,
             In fld (walk steps) ->
             extractVariablesFromString (FieldValue fld) "params" = []
             \/ (FieldCtx fld = ArrayEligibleContext
                 /\ FieldValue fld = reference "params" p)) ->
         validateParameterVariables (H := specSubstitution) steps params
         = None).
Proof.
  intros Hdecl Hp.
  assert (p ∈ collectArrayParameterNames params) as Harr
      by now apply elem_of_collectArrayParameterNames.
  assert (forall steps fld,
             In fld (walk steps) ->
             arrayMisuseIn (H := specSubstitution)
               (collectArrayParameterNames params) fld <> None ->
             validateParameterVariables (H := specSubstitution) steps params
             <> None) as Hreject.
  { intros steps fld. apply analyzer_rejects. }
  split; [|split; [|split]].
  - intros steps step pre post Hstep Hfield.
    apply scalarFieldOf_walk in Hfield as (fld & Hin & Hctx & Hval).
    apply (Hreject steps fld); [now apply (In_walk _ step)|].
    unfold arrayMisuseIn. rewrite Hctx, Hval.
    apply (prohibited_rejects _ _ _ p); [|exact Harr].
    apply extract_finds; [exact Hp|exact params_no_dollar].
  - intros steps step pre post Hstep Htoken Hne.
    apply tokenOf_walk in Htoken as (fld & Hin & Hctx & Hval).
    apply (Hreject steps fld); [now apply (In_walk _ step)|].
    unfold arrayMisuseIn. rewrite Hctx, Hval.
    apply (isolated_rejects _ _ _ p); [|exact Harr|].
    + apply extract_finds; [exact Hp|exact params_no_dollar].
    + now apply surrounded_not_whole.
  - intros name. now apply exact_reference_passes.
  - intros steps Hall. apply analyzer_accepts. intros fld Hin.
    destruct (Hall fld Hin) as [E|[Hctx Hval]].
    + now apply no_reference_passes.
    + unfold undeclaredIn, arrayMisuseIn. rewrite Hctx, Hval.
      now apply exact_reference_passes.
Qed.

(** The scenario of the spec: with the array parameter [list], the argument
    [prefix-$(params.list)] is rejected. *)
Lemma array_parameter_contexts_witness :
  validateParameterVariables (H := specSubstitution)
    [stepWithArgs ["prefix-" +:+ reference "params" "list" +:+ ""]]
    [listParam]
  <> None.
Proof.
  refine (proj1 (proj2 (array_parameter_contexts [listParam] "list" _ _))
            [stepWithArgs ["prefix-" +:+ reference "params" "list" +:+ ""]]
            (stepWithArgs ["prefix-" +:+ reference "params" "list" +:+ ""])
            "prefix-" "" _ _ _).
  - exists listParam. simpl. auto.
  - reflexivity.
  - simpl. auto.
  - right. simpl. auto.
  - simpl. discriminate.
Defined.

(** The other half of the scenario: the argument [$(params.list)] is
    accepted. *)
Lemma isolated_argument_accepted :
  reference "params" "list" = "$(params.list)"
  /\ validateParameterVariables (H := specSubstitution)
       [stepWithArgs ["$(params.list)"]] [listParam] = None
  /\ option_map Paths
       (validateParameterVariables (H := specSubstitution)
          [stepWithArgs ["prefix-$(params.list)"]] [listParam])
     = Some ["taskspec.steps.arg[0]"].
Proof. repeat split; vm_compute; reflexivity. Qed.

End ValidationProofs.

(* ================================================================== *)
(** * Part V: more on the TTL reconciler                                *)
(* ================================================================== *)

Module TTLMore.

Import TTL TTLProofs.

Local Open Scope ttl_scope.
Local Open Scope list_scope.

Section FinishTime.

Context `{TaskRunMethods}.

(** ** The finish time *)

Lemma find_skips {A} (p : A -> bool) (pre : list A) (x : A) (post : list A) :
  forallb (fun y => negb (p y)) pre = true ->
  p x = true ->
  find p (pre ++ x :: post) = Some x.
Proof.
  intros Hpre Hx. induction pre as [|y pre IH]; simpl.
  - now rewrite Hx.
  - simpl in Hpre. apply andb_true_iff in Hpre as [Hy Hpre].
    apply negb_true_iff in Hy. rewrite Hy. now apply IH.
Qed.

(** X1.  A finish time that [taskRunFinishTime] returns is never the zero
    time, and it is the last transition time of a condition of the run
    whose type is Succeeded and whose status is not Unknown. *)
Theorem finish_time_is_terminal (tr : TaskRun) (t : Time) :
  taskRunFinishTime tr = inl t ->
  t <> 0
  /\ exists con, In con (Conditions tr)
                 /\ CondType con = ConditionSucceeded
                 /\ CondStatus con <> ConditionUnknown
                 /\ LastTransitionTime con = t.
Proof.
  rewrite taskRunFinishTime_find. unfold terminalCondition.
  destruct (find isTerminal (Conditions tr)) as [con|] eqn:Hfind;
    [|discriminate].
  destruct (Time_IsZero (LastTransitionTime con)) eqn:Hz; [discriminate|].
  intros [= <-]. split.
  - unfold Time_IsZero in Hz. now apply Z.eqb_neq in Hz.
  - apply find_some in Hfind as [Hin Hterm]. exists con.
    unfold isTerminal in Hterm. apply andb_true_iff in Hterm as [Ht Hs].
    apply negb_true_iff in Hs.
    repeat split; [exact Hin|now apply String.eqb_eq|now apply String.eqb_neq].
Qed.

(** X2.  [taskRunFinishTime] is decided by the first condition of type
    Succeeded whose status is not Unknown: the conditions before it are
    skipped and the conditions after it are never read.  When that
    condition carries the zero time the result is the error, whatever
    follows. *)
Theorem first_terminal_condition_decides (tr : TaskRun)
  (pre : list Condition) (con : Condition) (post : list Condition) :
  Conditions tr = pre ++ con :: post ->
  forallb (fun c => negb (isTerminal c)) pre = true ->
  isTerminal con = true ->
  taskRunFinishTime tr =
  if Time_IsZero (LastTransitionTime con)
  then inr (ErrFinishTimeUnset (Namespace tr) (Name tr))
  else inl (LastTransitionTime con).
Proof.
  intros Hc Hpre Hcon. rewrite taskRunFinishTime_find.
  unfold terminalCondition. rewrite Hc.
  now rewrite (find_skips isTerminal pre con post Hpre Hcon).
Qed.

(** X3.  [getFinishAndExpireTime] succeeds exactly on a run on which
    [taskRunCleanup] holds and [taskRunFinishTime] succeeds; the TTL pointer
    is then set, the first time is the finish time and the second is the
    finish time plus the TTL. *)
Theorem finish_and_expire_time (tr : TaskRun) (finishAt expireAt : Time) :
  getFinishAndExpireTime tr = inl (finishAt, expireAt) <->
  taskRunCleanup tr = true
  /\ taskRunFinishTime tr = inl finishAt
  /\ exists d, ExpirationSecondsTTL tr = Some d /\ expireAt = finishAt + d.
Proof.
  unfold getFinishAndExpireTime. split.
  - destruct (taskRunCleanup tr) eqn:Hc; [|discriminate]. simpl.
    destruct (taskRunFinishTime tr) as [f|err]; [|discriminate].
    intros [= <- <-]. split; [reflexivity|]. split; [reflexivity|].
    apply taskRunCleanup_true in Hc as (Httl & _).
    unfold ttlOf, Time_Add, Time_UTC.
    destruct (ExpirationSecondsTTL tr) as [d|]; [|congruence].
    now exists d.
  - intros (-> & -> & d & Hd & ->). simpl.
    unfold ttlOf. now rewrite Hd.
Qed.

(** X4.  The time left never grows: checked at a later time, [trTimeLeft]
    returns at most what it returned before.  What it returns always fits
    a [Duration].  Whether it fails does not depend on the time of the
    check. *)
Theorem time_left_never_grows (tr : TaskRun) (since1 since2 : Time) :
  (forall r1 r2,
      trTimeLeft tr since1 = inl r1 ->
      trTimeLeft tr since2 = inl r2 ->
      since1 <= since2 ->
      r2 <= r1 /\ minDuration <= r1 <= maxDuration)
  /\ (forall err, trTimeLeft tr since1 = inr err
                  <-> trTimeLeft tr since2 = inr err).
Proof.
  unfold trTimeLeft.
  destruct (getFinishAndExpireTime tr) as [[f e]|err]; cbv zeta.
  - split.
    + intros r1 r2 [= <-] [= <-] Hle. rewrite !Time_Sub_spec.
      unfold Time_UTC, minDuration, maxDuration. lia.
    + intros err. split; discriminate.
  - split; [discriminate|]. intros err'. tauto.
Qed.

End FinishTime.

Lemma finish_time_is_terminal_witness :
  t2019 <> 0
  /\ exists con,
      In con (Conditions (finishedRun "uid-1" t2019 minute))
      /\ CondType con = ConditionSucceeded
      /\ CondStatus con <> ConditionUnknown
      /\ LastTransitionTime con = t2019.
Proof.
  apply (finish_time_is_terminal (finishedRun "uid-1" t2019 minute) t2019).
  reflexivity.
Defined.

(** A run that was running, then ready, then succeeded, then failed: the
    time of the success is its finish time. *)
Lemma first_terminal_condition_decides_witness :
  taskRunFinishTime
    (withConditions (finishedRun "uid-1" t2019 minute)
       [runningAt (t2019 - minute); readyAt (t2019 - Second);
        succeededAt t2019;
        {| CondType := ConditionSucceeded; CondStatus := ConditionFalse;
           LastTransitionTime := t2019 + minute |}])
  = inl t2019.
Proof.
  apply (first_terminal_condition_decides
           (withConditions (finishedRun "uid-1" t2019 minute)
              [runningAt (t2019 - minute); readyAt (t2019 - Second);
               succeededAt t2019;
               {| CondType := ConditionSucceeded;
                  CondStatus := ConditionFalse;
                  LastTransitionTime := t2019 + minute |}])
           [runningAt (t2019 - minute); readyAt (t2019 - Second)]
           (succeededAt t2019)
           [{| CondType := ConditionSucceeded; CondStatus := ConditionFalse;
               LastTransitionTime := t2019 + minute |}]);
    reflexivity.
Defined.

Lemma time_left_never_grows_witness :
  30 * Second <= minute
  /\ minDuration <= minute <= maxDuration.
Proof.
  apply (proj1 (time_left_never_grows (H := specMethods)
                  (finishedRun "uid-1" t2019 minute)
                  t2019 (t2019 + 30 * Second))
           minute (30 * Second)).
  - reflexivity.
  - reflexivity.
  - vm_compute. discriminate.
Defined.

Section Runs.

Context `{TaskRunMethods}.

(** ** One run of the TTL check *)

(** X5.  One run of [processTrTTL] leaves the server as it is, reads the
    clock at most once and makes at most one call.  That call is an
    [EnqueueAfter] for the key of the run, with a delay that is positive
    and no more than the largest [Duration], and it comes with the verdict
    not expired. *)
Theorem ttl_check_effects (tr : TaskRun) (w : World) :
  let w' := snd (processTrTTL tr w) in
  sameStore w w'
  /\ clock w' = clock w
  /\ (ticks w' = ticks w \/ ticks w' = S (ticks w))
  /\ (newCalls w w' = []
      \/ exists after,
          0 < after <= maxDuration
          /\ newCalls w w'
             = [CallEnqueueAfter (Namespace tr) (Name tr) after]
          /\ fst (processTrTTL tr w) = (false, None)).
Proof.
  cbv zeta.
  destruct (processTrTTL_result tr w)
    as [[_ ->]|[[_ (err & _ & ->)]|[[_ (f & d & _ & _ & _ & ->)]
                                   |[_ (f & d & after & _ & _ & Hlt & Ha & ->)]]]];
    simpl; repeat split; auto;
    try (left; now apply newCalls_none).
  right. exists after. split; [|split; [|reflexivity]].
  - subst after. unfold maxDuration. lia.
  - now apply (newCalls_one w (ticked w)).
Qed.

(** X6.  Once expired, always expired: when the check finds the TTL of a
    run expired at one reading of the clock, it finds it expired at every
    reading that is not earlier, and it schedules nothing. *)
Theorem expired_stays_expired (tr : TaskRun) (w w' : World) :
  fst (processTrTTL tr w) = (true, None) ->
  clock w (ticks w) <= clock w' (ticks w') ->
  processTrTTL tr w' = ((true, None), ticked w').
Proof.
  intros Hexp Hle.
  destruct (processTrTTL_result tr w)
    as [[_ E]|[[_ (err & _ & E)]|[[He (f & d & Hf & Hd & Hle1 & _)]
                                 |[_ (f & d & after & _ & _ & _ & _ & E)]]]];
    try (rewrite E in Hexp; discriminate).
  destruct (processTrTTL_result tr w')
    as [[He' _]|[[_ (err & Hf' & _)]|[[_ (f' & d' & _ & _ & _ & E)]
                                    |[_ (f' & d' & after & Hf' & Hd' & Hlt & _)]]]];
    try congruence.
  rewrite Hf in Hf'. rewrite Hd in Hd'.
  injection Hf' as <-. injection Hd' as <-. lia.
Qed.

(** ** One run of the reconciler *)

(** X7.  A cached copy that is owned by a PipelineRun, is being deleted,
    has no TTL or is not done is left alone: [processTaskRunExpired]
    returns no error and changes nothing, not even the clock. *)
Theorem non_candidates_left_alone (ns name : string) (tr : TaskRun)
  (w : World) :
  HasPipelineRunOwnerReference tr = true
  \/ DeletionTimestamp tr <> None
  \/ ExpirationSecondsTTL tr = None
  \/ IsDone tr = false ->
  processTaskRunExpired ns name tr w = (None, w).
Proof.
  intros Hc.
  destruct (HasPipelineRunOwnerReference tr) eqn:Ho.
  { rewrite processTaskRunExpired_early by (now left). now rewrite Ho. }
  assert (cleanupEligible tr = false) as He.
  { destruct (cleanupEligible tr) eqn:He; [|reflexivity].
    apply cleanupEligible_true in He as [Hd Hcl].
    apply taskRunCleanup_true in Hcl as (Httl & Hdone & _).
    destruct Hc as [Hc|[Hc|[Hc|Hc]]]; congruence. }
  assert (processTrTTL tr w = ((false, None), w)) as Hp
      by now rewrite processTrTTL_unfold, He.
  rewrite processTaskRunExpired_early by (right; now rewrite Hp).
  now rewrite Ho, Hp.
Qed.

(** What [processFresh] does, in terms of the four ways of the check. *)
Lemma processFresh_result (ns name : string) (fresh : TaskRun) (w0 w : World) :
  calls w = calls w0 ++ [CallGet ns name] ->
  let w' := snd (processFresh fresh w) in
  newCalls w0 w' = [CallGet ns name]
  \/ (exists after,
         newCalls w0 w'
         = [CallGet ns name;
            CallEnqueueAfter (Namespace fresh) (Name fresh) after])
  \/ (HasPipelineRunOwnerReference fresh = false
      /\ cleanupEligible fresh = true
      /\ (exists f d, taskRunFinishTime fresh = inl f
                      /\ ExpirationSecondsTTL fresh = Some d
                      /\ f + d <= clock w (ticks w))
      /\ processFresh fresh w
         = serveDelete (Namespace fresh) (Name fresh)
             (deleteOptionsFor fresh)
             (logged (CallDelete (Namespace fresh) (Name fresh)
                                 (deleteOptionsFor fresh)) (ticked w))
      /\ newCalls w0 w'
         = [CallGet ns name;
            CallDelete (Namespace fresh) (Name fresh)
                       (deleteOptionsFor fresh)]).
Proof.
  intros Hcalls. cbv zeta. rewrite processFresh_unfold.
  destruct (HasPipelineRunOwnerReference fresh) eqn:Ho.
  { left. now apply newCalls_app. }
  destruct (processTrTTL_result fresh w)
    as [[_ ->]|[[_ (err & _ & ->)]|[[He (f & d & Hf & Hd & Hle & ->)]
                                   |[_ (f & d & after & _ & _ & _ & _ & ->)]]]].
  - left. now apply newCalls_app.
  - left. now apply newCalls_app.
  - right. right. split; [reflexivity|]. split; [exact He|].
    split; [now exists f, d|]. split; [apply Delete_unfold|].
    rewrite Delete_unfold. apply newCalls_app.
    rewrite serveDelete_calls. simpl. rewrite Hcalls.
    now rewrite <- app_assoc.
  - right. left. exists after. apply newCalls_app. simpl.
    rewrite Hcalls. now rewrite <- app_assoc.
Qed.

(** X8.  The calls of one run of [processTaskRunExpired] are one of five
    sequences: none; one [EnqueueAfter] for the cached copy; one [Get]; a
    [Get] and an [EnqueueAfter] for the fresh copy; a [Get] and a [Delete]
    of the fresh copy.  So a run never fetches twice, never deletes twice,
    never deletes without having fetched, and never both requeues and
    deletes. *)
Theorem calls_of_one_run (ns name : string) (tr : TaskRun) (w : World) :
  let w' := snd (processTaskRunExpired ns name tr w) in
  newCalls w w' = []
  \/ (exists after,
         newCalls w w' = [CallEnqueueAfter (Namespace tr) (Name tr) after])
  \/ newCalls w w' = [CallGet ns name]
  \/ (exists fresh after,
         serveGet ns name (ticked w) = inl fresh
         /\ newCalls w w'
            = [CallGet ns name;
               CallEnqueueAfter (Namespace fresh) (Name fresh) after])
  \/ (exists fresh,
         serveGet ns name (ticked w) = inl fresh
         /\ newCalls w w'
            = [CallGet ns name;
               CallDelete (Namespace fresh) (Name fresh)
                          (deleteOptionsFor fresh)]).
Proof.
  cbv zeta.
  destruct (HasPipelineRunOwnerReference tr) eqn:Ho.
  { rewrite processTaskRunExpired_early by (now left). rewrite Ho.
    left. now apply newCalls_none. }
  destruct (processTrTTL_result tr w)
    as [[_ Hp]|[[_ (err & _ & Hp)]|[[_ (f & d & _ & _ & _ & Hp)]
                                   |[_ (f & d & after & _ & _ & _ & _ & Hp)]]]].
  - rewrite processTaskRunExpired_early by (right; now rewrite Hp).
    rewrite Ho, Hp. left. now apply newCalls_none.
  - rewrite processTaskRunExpired_early by (right; now rewrite Hp).
    rewrite Ho, Hp. left. now apply newCalls_none.
  - rewrite (processTaskRunExpired_refetch _ _ _ _ _ Ho Hp).
    destruct (serveGet ns name (ticked w)) as [fresh|gerr] eqn:Hg.
    2:{ right. right. left. now apply newCalls_app. }
    destruct (processFresh_result ns name fresh w
                (logged (CallGet ns name) (ticked w)) eq_refl)
      as [E|[(after & E)|(_ & _ & _ & _ & E)]].
    + right. right. now left.
    + right. right. right. left. now exists fresh, after.
    + right. right. right. right. now exists fresh.
  - rewrite processTaskRunExpired_early by (right; now rewrite Hp).
    rewrite Ho, Hp. right. left. exists after.
    now apply (newCalls_one w (ticked w)).
Qed.

(** X9.  [processTaskRunExpired] issues a delete only when both copies
    pass: the cached copy is not owned and its TTL has run out at the first
    reading of the clock, and the copy the server returned is not owned,
    is not being deleted, passes [taskRunCleanup] and has its own TTL run
    out at the second reading of the clock. *)
Theorem delete_only_when_both_expired (ns name : string) (tr : TaskRun)
  (w : World) (dns dname : string) (options : DeleteOptions) :
  In (CallDelete dns dname options)
     (newCalls w (snd (processTaskRunExpired ns name tr w))) ->
  HasPipelineRunOwnerReference tr = false
  /\ (exists f d, taskRunFinishTime tr = inl f
                  /\ ExpirationSecondsTTL tr = Some d
                  /\ f + d <= clock w (ticks w))
  /\ exists fresh,
      serveGet ns name (ticked w) = inl fresh
      /\ HasPipelineRunOwnerReference fresh = false
      /\ DeletionTimestamp fresh = None
      /\ taskRunCleanup fresh = true
      /\ exists f d, taskRunFinishTime fresh = inl f
                     /\ ExpirationSecondsTTL fresh = Some d
                     /\ f + d <= clock w (S (ticks w)).
Proof.
  intros Hin.
  destruct (HasPipelineRunOwnerReference tr) eqn:Ho.
  { rewrite processTaskRunExpired_early in Hin by (now left).
    rewrite Ho in Hin. rewrite newCalls_none in Hin by reflexivity.
    destruct Hin. }
  destruct (processTrTTL_result tr w)
    as [[_ Hp]|[[_ (err & _ & Hp)]|[[_ (f & d & Hf & Hd & Hle & Hp)]
                                   |[_ (f & d & after & _ & _ & _ & _ & Hp)]]]].
  - rewrite processTaskRunExpired_early in Hin by (right; now rewrite Hp).
    rewrite Ho, Hp in Hin. rewrite newCalls_none in Hin by reflexivity.
    destruct Hin.
  - rewrite processTaskRunExpired_early in Hin by (right; now rewrite Hp).
    rewrite Ho, Hp in Hin. rewrite newCalls_none in Hin by reflexivity.
    destruct Hin.
  - split; [reflexivity|]. split; [now exists f, d|].
    rewrite (processTaskRunExpired_refetch _ _ _ _ _ Ho Hp) in Hin.
    destruct (serveGet ns name (ticked w)) as [fresh|gerr] eqn:Hg.
    2:{ rewrite (newCalls_app _ _ [CallGet ns name]) in Hin
          by reflexivity.
        destruct Hin as [Hin|[]]. discriminate. }
    exists fresh. split; [reflexivity|].
    destruct (processFresh_result ns name fresh w
                (logged (CallGet ns name) (ticked w)) eq_refl)
      as [E|[(after & E)|(Hof & He & Hexp & _ & _)]].
    + rewrite E in Hin. destruct Hin as [Hin|[]]. discriminate.
    + rewrite E in Hin. destruct Hin as [Hin|[Hin|[]]]; discriminate.
    + apply cleanupEligible_true in He as [Hd' Hcl].
      repeat split; assumption.
  - rewrite processTaskRunExpired_early in Hin by (right; now rewrite Hp).
    rewrite Ho, Hp in Hin. cbn [fst snd] in Hin.
    rewrite (newCalls_one w (ticked w)) in Hin by reflexivity.
    destruct Hin as [Hin|[]]. discriminate.
Qed.

(** ** The delete and its answer *)

Lemma expiredAt_check (tr : TaskRun) (w : World) :
  expiredAt tr (clock w (ticks w)) ->
  processTrTTL tr w = ((true, None), ticked w).
Proof.
  intros (_ & He & f & d & Hf & Hd & Hle).
  destruct (processTrTTL_result tr w)
    as [[He' _]|[[_ (err & Hf' & _)]|[[_ (f' & d' & _ & _ & _ & E)]
                                    |[_ (f' & d' & after & Hf' & Hd' & Hlt & _)]]]];
    try congruence.
  rewrite Hf in Hf'. rewrite Hd in Hd'.
  injection Hf' as <-. injection Hd' as <-. lia.
Qed.

(** With both copies expired, the result of the run is the answer to the
    delete. *)
Lemma both_expired_deletes (ns name : string) (tr fresh : TaskRun)
  (w : World) :
  expiredAt tr (clock w (ticks w)) ->
  serveGet ns name (ticked w) = inl fresh ->
  expiredAt fresh (clock w (S (ticks w))) ->
  processTaskRunExpired ns name tr w
  = serveDelete (Namespace fresh) (Name fresh) (deleteOptionsFor fresh)
      (logged (CallDelete (Namespace fresh) (Name fresh)
                          (deleteOptionsFor fresh))
              (ticked (logged (CallGet ns name) (ticked w)))).
Proof.
  intros Ht Hg Hfresh.
  pose proof Ht as (Ho & _). pose proof Hfresh as (Hof & _).
  rewrite (processTaskRunExpired_refetch _ _ _ _ _ Ho (expiredAt_check _ _ Ht)).
  rewrite Hg, processFresh_unfold, Hof.
  rewrite (expiredAt_check fresh (logged (CallGet ns name) (ticked w)))
    by exact Hfresh.
  apply Delete_unfold.
Qed.

(** X10.  A failure of the delete is the result of the run: when both
    copies are expired and the server answers the delete with an error,
    [processTaskRunExpired] returns that error, after exactly one fetch and
    one delete call, and the server still holds what it held. *)
Theorem delete_failure_surfaces (ns name : string) (tr fresh : TaskRun)
  (w : World) (err : Error) :
  expiredAt tr (clock w (ticks w)) ->
  serveGet ns name (ticked w) = inl fresh ->
  expiredAt fresh (clock w (S (ticks w))) ->
  deleteFault w (Namespace fresh) (Name fresh) = Some err ->
  exists w',
    processTaskRunExpired ns name tr w = (Some err, w')
    /\ objects w' = objects w
    /\ newCalls w w'
       = [CallGet ns name;
          CallDelete (Namespace fresh) (Name fresh)
                     (deleteOptionsFor fresh)].
Proof.
  intros Ht Hg Hfresh Hfault.
  rewrite (both_expired_deletes _ _ _ _ _ Ht Hg Hfresh).
  unfold serveDelete. simpl deleteFault. rewrite Hfault.
  eexists. split; [reflexivity|]. split; [reflexivity|].
  apply newCalls_app. simpl. now rewrite <- app_assoc.
Qed.

Lemma lookupObject_key (ns name : string) (objs : list TaskRun)
  (tr : TaskRun) :
  lookupObject ns name objs = Some tr ->
  Namespace tr = ns /\ Name tr = name.
Proof.
  intros Hl. apply find_some in Hl as [_ Hk].
  unfold sameKey in Hk. apply andb_true_iff in Hk as [Hn Hm].
  split; now apply String.eqb_eq.
Qed.

Lemma lookupObject_removed (ns name : string) (objs : list TaskRun) :
  lookupObject ns name
    (List.filter (fun o => negb (sameKey ns name o)) objs) = None.
Proof.
  unfold lookupObject. induction objs as [|o objs IH]; simpl; [reflexivity|].
  destruct (sameKey ns name o) eqn:Hk; simpl; [exact IH|].
  now rewrite Hk.
Qed.

(** X11.  Against a server that does not fail, a run of
    [processTaskRunExpired] that finds both the cached copy and the stored
    copy expired returns no error and the stored copy is gone afterwards,
    while every object of another key stays.  The delete goes to the key
    that was fetched and carries the UID that was fetched, so the
    precondition holds. *)
Theorem expired_run_is_removed (ns name : string) (tr fresh : TaskRun)
  (w : World) :
  expiredAt tr (clock w (ticks w)) ->
  getFault w ns name = None ->
  deleteFault w ns name = None ->
  lookupObject ns name (objects w) = Some fresh ->
  expiredAt fresh (clock w (S (ticks w))) ->
  exists w',
    processTaskRunExpired ns name tr w = (None, w')
    /\ lookupObject ns name (objects w') = None
    /\ forall o, sameKey ns name o = false ->
                 (In o (objects w') <-> In o (objects w)).
Proof.
  intros Ht Hgf Hdf Hl Hfresh.
  assert (serveGet ns name (ticked w) = inl fresh) as Hg.
  { unfold serveGet. simpl. now rewrite Hgf, Hl. }
  rewrite (both_expired_deletes _ _ _ _ _ Ht Hg Hfresh).
  destruct (lookupObject_key _ _ _ _ Hl) as [-> ->].
  unfold serveDelete. simpl deleteFault. simpl objects.
  rewrite Hdf, Hl.
  unfold uidMatches, deleteOptionsFor. simpl.
  rewrite String.eqb_refl.
  eexists. split; [reflexivity|]. simpl. split.
  - apply lookupObject_removed.
  - intros o Ho. rewrite filter_In, Ho. simpl. tauto.
Qed.

(** ** The event handlers *)

(** X12.  [AddTaskRun] and [UpdateTaskRun] touch neither the clock nor the
    server, and [UpdateTaskRun] never looks at the old object.  They
    enqueue the key of the run exactly when a run of [processTrTTL] on it
    would get past its guard and read the clock; a run they do not enqueue
    is one that [processTrTTL] returns from at once. *)
Theorem handlers_enqueue_candidates (old cur : TaskRun) (w : World) :
  UpdateTaskRun old cur w = AddTaskRun cur w
  /\ sameStore w (snd (AddTaskRun cur w))
  /\ ticks (snd (AddTaskRun cur w)) = ticks w
  /\ ((newCalls w (snd (AddTaskRun cur w))
       = [CallEnqueue (Namespace cur) (Name cur)]
       /\ ticks (snd (processTrTTL cur w)) = S (ticks w))
      \/ (newCalls w (snd (AddTaskRun cur w)) = []
          /\ processTrTTL cur w = ((false, None), w))).
Proof.
  split; [reflexivity|].
  rewrite AddTaskRun_enqueues.
  destruct (processTrTTL_result cur w)
    as [[He Hp]|[[He (err & _ & Hp)]|[[He (f & d & _ & _ & _ & Hp)]
                                    |[He (f & d & after & _ & _ & _ & _ & Hp)]]]];
    rewrite He, Hp; simpl; repeat split;
    try (right; split; [now apply newCalls_none|reflexivity]);
    left; (split; [now apply newCalls_app|reflexivity]).
Qed.

End Runs.

Lemma expired_stays_expired_witness :
  processTrTTL (H := specMethods) (finishedRun "uid-1" t2019 minute)
    (worldAt (t2019 + 3 * minute) [])
  = ((true, None), ticked (worldAt (t2019 + 3 * minute) [])).
Proof.
  apply (expired_stays_expired (H := specMethods)
           (finishedRun "uid-1" t2019 minute)
           (worldAt (t2019 + 2 * minute) [])
           (worldAt (t2019 + 3 * minute) [])).
  - reflexivity.
  - vm_compute. discriminate.
Defined.

(** A run that is still running is left alone. *)
Lemma non_candidates_left_alone_witness :
  processTaskRunExpired (H := specMethods) "default" "build"
    (withConditions (finishedRun "uid-1" t2019 minute) [runningAt t2019])
    (worldAt (t2019 + 2 * minute) [])
  = (None, worldAt (t2019 + 2 * minute) []).
Proof.
  apply (non_candidates_left_alone (H := specMethods)).
  right. right. right. reflexivity.
Defined.

Lemma delete_only_when_both_expired_witness :
  HasPipelineRunOwnerReference (TaskRunMethods := specMethods)
    (finishedRun "uid-1" t2019 minute) = false
  /\ (exists f d,
         taskRunFinishTime (finishedRun "uid-1" t2019 minute) = inl f
         /\ ExpirationSecondsTTL (finishedRun "uid-1" t2019 minute) = Some d
         /\ f + d <= t2019 + 61 * Second)
  /\ exists fresh,
      serveGet "default" "build"
        (ticked (worldAt (t2019 + 61 * Second)
                         [finishedRun "uid-1" t2019 minute])) = inl fresh
      /\ HasPipelineRunOwnerReference (TaskRunMethods := specMethods) fresh
         = false
      /\ DeletionTimestamp fresh = None
      /\ taskRunCleanup (H := specMethods) fresh = true
      /\ exists f d, taskRunFinishTime fresh = inl f
                     /\ ExpirationSecondsTTL fresh = Some d
                     /\ f + d <= t2019 + 61 * Second.
Proof.
  apply (delete_only_when_both_expired (H := specMethods) "default" "build"
           (finishedRun "uid-1" t2019 minute)
           (worldAt (t2019 + 61 * Second)
                    [finishedRun "uid-1" t2019 minute])
           "default" "build" (deleteOptionsFor
                                (finishedRun "uid-1" t2019 minute))).
  vm_compute. right. left. reflexivity.
Defined.

(** Discharges [expiredAt] on a concrete run and time by evaluation. *)
Ltac expired_now f d :=
  split; [reflexivity|];
  split; [reflexivity|];
  exists f, d;
  split; [reflexivity|];
  split; [reflexivity|vm_compute; discriminate].

(** The server times out on the delete of an expired run. *)
Lemma delete_failure_surfaces_witness :
  exists w',
    processTaskRunExpired (H := specMethods) "default" "build"
      (finishedRun "uid-1" t2019 minute)
      (failingDeletes (StatusError StatusReasonTimeout "timeout")
         (worldAt (t2019 + 2 * minute) [finishedRun "uid-1" t2019 minute]))
    = (Some (StatusError StatusReasonTimeout "timeout"), w')
    /\ objects w' = [finishedRun "uid-1" t2019 minute]
    /\ newCalls
         (failingDeletes (StatusError StatusReasonTimeout "timeout")
            (worldAt (t2019 + 2 * minute)
                     [finishedRun "uid-1" t2019 minute])) w'
       = [CallGet "default" "build";
          CallDelete "default" "build"
            (deleteOptionsFor (finishedRun "uid-1" t2019 minute))].
Proof.
  apply (delete_failure_surfaces (H := specMethods) "default" "build"
           (finishedRun "uid-1" t2019 minute)
           (finishedRun "uid-1" t2019 minute)
           (failingDeletes (StatusError StatusReasonTimeout "timeout")
              (worldAt (t2019 + 2 * minute)
                       [finishedRun "uid-1" t2019 minute]))).
  - expired_now t2019 minute.
  - reflexivity.
  - expired_now t2019 minute.
  - reflexivity.
Defined.

(** The scenario of a run processed after its TTL, with another run in the
    store. *)
Lemma expired_run_is_removed_witness :
  exists w',
    processTaskRunExpired (H := specMethods) "default" "build"
      (finishedRun "uid-1" t2019 minute)
      (worldAt (t2019 + 2 * minute)
         [finishedRun "uid-1" t2019 minute])
    = (None, w')
    /\ lookupObject "default" "build" (objects w') = None
    /\ forall o, sameKey "default" "build" o = false ->
                 (In o (objects w')
                  <-> In o [finishedRun "uid-1" t2019 minute]).
Proof.
  apply (expired_run_is_removed (H := specMethods) "default" "build"
           (finishedRun "uid-1" t2019 minute)
           (finishedRun "uid-1" t2019 minute)
           (worldAt (t2019 + 2 * minute)
                    [finishedRun "uid-1" t2019 minute])).
  - expired_now t2019 minute.
  - reflexivity.
  - reflexivity.
  - reflexivity.
  - expired_now t2019 minute.
Defined.

End TTLMore.

(* ================================================================== *)
(** * Part VI: more on the validator                                    *)
(* ================================================================== *)

Module ValidationMore.

Import TaskValidation ValidationProofs.

Local Open Scope list_scope.

(** ** Volumes *)

Lemma inSet_false (v : string) (vars : gset string) :
  inSet v vars = false <-> v ∉ vars.
Proof. apply bool_decide_eq_false. Qed.

Lemma elem_of_added (x y : string) (vars : gset string) :
  x ∈ {[y]} ∪ vars <-> x = y \/ x ∈ vars.
Proof. now rewrite elem_of_union, elem_of_singleton. Qed.

Lemma validateVolumesFrom_none (vols : gset string) (volumes : list Volume) :
  validateVolumesFrom vols volumes = None <->
  List.NoDup (map VolumeName volumes)
  /\ forall v, In v volumes -> VolumeName v ∉ vols.
Proof.
  revert vols. induction volumes as [|v volumes IH]; intros vols; simpl.
  - split; [|reflexivity]. intros _. split; [constructor|]. intros ? [].
  - destruct (inSet (VolumeName v) vols) eqn:Hv.
    + apply inSet_true in Hv. split; [discriminate|].
      intros [_ Hall]. exfalso. apply (Hall v); [now left|exact Hv].
    + apply inSet_false in Hv. rewrite IH. split.
      * intros [Hnd Hall]. split.
        -- constructor; [|exact Hnd]. intros Hin.
           apply in_map_iff in Hin as (u & Eu & Hu).
           apply (Hall u Hu). apply elem_of_added. now left.
        -- intros u [<-|Hu]; [exact Hv|].
           intros Hin. apply (Hall u Hu). apply elem_of_added. now right.
      * intros [Hnd Hall]. apply List.NoDup_cons_iff in Hnd as [Hnin Hnd].
        split; [exact Hnd|]. intros u Hu Hin.
        apply elem_of_union in Hin as [Hin|Hin].
        -- apply elem_of_singleton in Hin. apply Hnin.
           rewrite <- Hin. now apply in_map.
        -- apply (Hall u); [now right|exact Hin].
Qed.

(** X13.  [ValidateVolumes] accepts a list of volumes exactly when no two
    of them have the same name. *)
Theorem volumes_accepted_iff_distinct (volumes : list Volume) :
  ValidateVolumes volumes = None <-> List.NoDup (map VolumeName volumes).
Proof.
  unfold ValidateVolumes. rewrite validateVolumesFrom_none.
  split; [tauto|]. intros Hnd. split; [exact Hnd|].
  intros v _. apply not_elem_of_empty.
Qed.

Lemma validateVolumesFrom_duplicate (vols : gset string)
  (pre : list Volume) (v : Volume) (post : list Volume) :
  List.NoDup (map VolumeName pre) ->
  (forall u, In u pre -> VolumeName u ∉ vols) ->
  VolumeName v ∈ vols \/ In (VolumeName v) (map VolumeName pre) ->
  validateVolumesFrom vols (pre ++ v :: post)
  = Some (duplicateVolume (VolumeName v)).
Proof.
  revert vols. induction pre as [|u pre IH]; intros vols Hnd Hfresh Hdup;
    simpl.
  - destruct Hdup as [Hdup|[]]. apply inSet_true in Hdup.
    now rewrite Hdup.
  - assert (inSet (VolumeName u) vols = false) as ->
        by (apply inSet_false, Hfresh; now left).
    simpl in Hnd. apply List.NoDup_cons_iff in Hnd as [Hnin Hnd].
    apply IH; [exact Hnd| |].
    + intros x Hx Hin. apply elem_of_union in Hin as [Hin|Hin].
      * apply elem_of_singleton in Hin. apply Hnin. rewrite <- Hin.
        now apply in_map.
      * apply (Hfresh x); [now right|exact Hin].
    + destruct Hdup as [Hdup|[Hdup|Hdup]].
      * left. apply elem_of_added. now right.
      * left. apply elem_of_added. now left.
      * now right.
Qed.

(** X14.  The error of [ValidateVolumes] names the first volume whose name
    was already seen: with distinct names before it, a volume that repeats
    one of them is the one reported, under the path [name], whatever comes
    after it.  Its message is the format of the source applied to that
    name. *)
Theorem first_repeated_volume_reported (pre : list Volume) (v : Volume)
  (post : list Volume) :
  List.NoDup (map VolumeName pre) ->
  In (VolumeName v) (map VolumeName pre) ->
  ValidateVolumes (pre ++ v :: post)
  = Some {| Message := Sprintf "multiple volumes with same name %q"
                               [VolumeName v];
            Paths := ["name"];
            Details := "" |}.
Proof.
  intros Hnd Hin. unfold ValidateVolumes.
  apply validateVolumesFrom_duplicate; [exact Hnd| |now right].
  intros u _. apply not_elem_of_empty.
Qed.

(** ** Steps *)

Lemma stepNames_cons (s : Step) (steps : list Step) :
  stepNames (s :: steps)
  = if isEmptyString (Name s) then stepNames steps
    else Name s :: stepNames steps.
Proof.
  unfold stepNames. simpl. now destruct (isEmptyString (Name s)).
Qed.

Lemma validateStepsFrom_none (names : gset string) (steps : list Step) :
  validateStepsFrom names steps = None <->
  forallb stepWellFormed steps = true
  /\ List.NoDup (stepNames steps)
  /\ forall n, In n (stepNames steps) -> n ∉ names.
Proof.
  revert names. induction steps as [|s steps IH]; intros names.
  - simpl. split; [|reflexivity]. intros _.
    split; [reflexivity|]. split; [constructor|]. intros ? [].
  - cbn [validateStepsFrom forallb]. rewrite stepNames_cons.
    unfold stepWellFormed at 1.
    destruct (isEmptyString (Image s)); simpl.
    { split; [discriminate|]. intros [? _]. discriminate. }
    destruct (isEmptyString (Script s)); simpl.
    + destruct (isEmptyString (Name s)) eqn:Hn.
      * apply IH.
      * destruct (inSet (Name s : string) names) eqn:Hs.
        -- apply inSet_true in Hs. split; [discriminate|].
           intros (_ & _ & Hall). exfalso.
           apply (Hall (Name s)); [now left|exact Hs].
        -- apply inSet_false in Hs. rewrite IH. split.
           ++ intros (Hwf & Hnd & Hall). split; [exact Hwf|]. split.
              ** constructor; [|exact Hnd]. intros Hin.
                 apply (Hall _ Hin). apply elem_of_added. now left.
              ** intros n [<-|Hin]; [exact Hs|].
                 intros Hn'. apply (Hall n Hin). apply elem_of_added.
                 now right.
           ++ intros (Hwf & Hnd & Hall).
              apply List.NoDup_cons_iff in Hnd as [Hnin Hnd].
              split; [exact Hwf|]. split; [exact Hnd|].
              intros n Hin Hn'. apply elem_of_union in Hn' as [Hn'|Hn'].
              ** apply elem_of_singleton in Hn'. subst n. contradiction.
              ** apply (Hall n); [now right|exact Hn'].
    + destruct (nonEmpty (Args s) || nonEmpty (Command s)); simpl.
      { split; [discriminate|]. intros [? _]. discriminate. }
      destruct (HasPrefix (TrimSpace (Script s)) "#!"); simpl.
      2:{ split; [discriminate|]. intros [? _]. discriminate. }
      destruct (isEmptyString (Name s)) eqn:Hn.
      * apply IH.
      * destruct (inSet (Name s : string) names) eqn:Hs.
        -- apply inSet_true in Hs. split; [discriminate|].
           intros (_ & _ & Hall). exfalso.
           apply (Hall (Name s)); [now left|exact Hs].
        -- apply inSet_false in Hs. rewrite IH. split.
           ++ intros (Hwf & Hnd & Hall). split; [exact Hwf|]. split.
              ** constructor; [|exact Hnd]. intros Hin.
                 apply (Hall _ Hin). apply elem_of_added. now left.
              ** intros n [<-|Hin]; [exact Hs|].
                 intros Hn'. apply (Hall n Hin). apply elem_of_added.
                 now right.
           ++ intros (Hwf & Hnd & Hall).
              apply List.NoDup_cons_iff in Hnd as [Hnin Hnd].
              split; [exact Hwf|]. split; [exact Hnd|].
              intros n Hin Hn'. apply elem_of_union in Hn' as [Hn'|Hn'].
              ** apply elem_of_singleton in Hn'. subst n. contradiction.
              ** apply (Hall n); [now right|exact Hn'].
Qed.

(** X15.  [validateSteps] accepts a list of steps exactly when every step
    has an image, every script comes without arguments and command and
    starts with a shebang, and the names of the steps that have a name are
    pairwise distinct.  Steps without a name never clash. *)
Theorem steps_accepted_iff (steps : list Step) :
  validateSteps steps = None <->
  forallb stepWellFormed steps = true /\ List.NoDup (stepNames steps).
Proof.
  unfold validateSteps. rewrite validateStepsFrom_none.
  split; [tauto|]. intros [Hwf Hnd]. split; [exact Hwf|].
  split; [exact Hnd|]. intros n _. apply not_elem_of_empty.
Qed.

(** A white-space character in front is trimmed away. *)
Lemma trimLeft_white (c : string) (rest : list ascii) :
  In c whiteSpace -> trimLeft (chars c ++ rest) = trimLeft rest.
Proof.
  intros Hc. vm_compute in Hc.
  repeat (destruct Hc as [<-|Hc]; [reflexivity|]). contradiction.
Qed.

Lemma trimLeft_joined (l : list string) (rest : list ascii) :
  List.Forall (fun c => In c whiteSpace) l ->
  trimLeft (chars (joined l) ++ rest) = trimLeft rest.
Proof.
  induction 1 as [|c l Hc _ IH]; [reflexivity|].
  cbn [joined fold_right]. fold (joined l).
  rewrite chars_append, <- app_assoc.
  now rewrite (trimLeft_white c _ Hc).
Qed.

(** No white-space character starts with the byte of [#]. *)
Lemma trimLeft_shebang (rest : list ascii) :
  trimLeft ("#"%char :: "!"%char :: rest) = "#"%char :: "!"%char :: rest.
Proof. now destruct rest. Qed.

Lemma trimFromEnd_step (c1 : ascii) (r : list ascii) :
  trimFromEnd (c1 :: r)
  = if isSpace c1 then trimFromEnd r
    else
      match r with
      | [] => c1 :: r
      | c2 :: r2 =>
          if isSpace2 c2 c1 then trimFromEnd r2
          else
            match r2 with
            | [] => c1 :: r
            | c3 :: r3 =>
                if isSpace3 c3 c2 c1 then trimFromEnd r3 else c1 :: r
            end
      end.
Proof. reflexivity. Qed.

(** Trimming at the end never reaches a shebang at the start: its two
    bytes are no white space and belong to no longer encoding of one. *)
Lemma trimFromEnd_shebang (r : list ascii) :
  exists r', trimFromEnd (r ++ ["!"%char; "#"%char])
             = r' ++ ["!"%char; "#"%char].
Proof.
  remember (length r) as n eqn:Hn. revert r Hn.
  induction n as [n IH] using lt_wf_ind. intros r Hn.
  destruct r as [|c1 [|c2 [|c3 r3]]]; cbn [app].
  - now exists [].
  - rewrite trimFromEnd_step. destruct (isSpace c1).
    + now exists [].
    + now exists [c1].
  - rewrite trimFromEnd_step. destruct (isSpace c1).
    + apply (IH 1%nat ltac:(simpl in Hn; lia) [c2] eq_refl).
    + destruct (isSpace2 c2 c1).
      * now exists [].
      * now exists [c1; c2].
  - rewrite trimFromEnd_step. destruct (isSpace c1).
    + apply (IH (length (c2 :: c3 :: r3)) ltac:(simpl in Hn; simpl; lia) (c2 :: c3 :: r3) eq_refl).
    + destruct (isSpace2 c2 c1).
      * apply (IH (length (c3 :: r3)) ltac:(simpl in Hn; simpl; lia) (c3 :: r3) eq_refl).
      * destruct (isSpace3 c3 c2 c1).
        -- apply (IH (length r3) ltac:(simpl in Hn; simpl; lia) r3 eq_refl).
        -- now exists (c1 :: c2 :: c3 :: r3).
Qed.

(** The trimmed text of a script that starts, after white space, with a
    shebang starts with the shebang. *)
Lemma TrimSpace_shebang (l : list string) (rest : string) :
  List.Forall (fun c => In c whiteSpace) l ->
  HasPrefix (TrimSpace (joined l +:+ "#!" +:+ rest)) "#!" = true.
Proof.
  intros Hl. unfold TrimSpace, HasPrefix.
  rewrite !chars_append, (trimLeft_joined _ _ Hl).
  change (chars "#!" ++ chars rest)
    with ("#"%char :: "!"%char :: chars rest).
  rewrite trimLeft_shebang. unfold trimRight.
  change (rev ("#"%char :: "!"%char :: chars rest))
    with ((rev (chars rest) ++ ["!"%char]) ++ ["#"%char]).
  rewrite <- app_assoc. cbn [app].
  destruct (trimFromEnd_shebang (rev (chars rest))) as [r' ->].
  rewrite rev_app_distr. cbn [rev app string_of_list_ascii].
  apply String.prefix_correct.
  now destruct (string_of_list_ascii (rev r')).
Qed.

(** X16.  White space before the shebang does not count: a step with an
    image, no arguments and no command whose script starts, after any
    number of white-space characters of Unicode, with [#!] passes the
    checks of [validateSteps] on its own. *)
Theorem script_with_shebang_accepted (s : Step) (ws rest : string) :
  Image s <> "" ->
  Args s = [] ->
  Command s = [] ->
  Script s = ws +:+ "#!" +:+ rest ->
  allSpace ws ->
  validateSteps [s] = None.
Proof.
  intros Hi Ha Hc Hs (l & Hl & ->). unfold validateSteps.
  apply validateStepsFrom_none. split; [|split].
  - cbn [forallb]. unfold stepWellFormed.
    rewrite Ha, Hc, Hs, (TrimSpace_shebang _ _ Hl). simpl.
    unfold isEmptyString at 1.
    apply String.eqb_neq in Hi. rewrite Hi. simpl.
    now rewrite orb_true_r.
  - rewrite stepNames_cons.
    destruct (isEmptyString (Name s)); repeat constructor; intros [].
  - intros n _. apply not_elem_of_empty.
Qed.

(** ** Parameter types *)

Lemma firstError_none_iff {A} (chk : A -> option FieldError) (l : list A) :
  firstError chk l = None <-> forall x, In x l -> chk x = None.
Proof.
  split; [|apply firstError_none].
  intros Hnone x Hin. destruct (chk x) eqn:Hx; [|reflexivity].
  exfalso. apply (firstError_found chk l x Hin); [|exact Hnone].
  now rewrite Hx.
Qed.

Lemma validType_flag (p : ParamSpec) (types : list string) (flag : bool) :
  fold_left (fun validType allowedType =>
               if String.eqb (ParamType p) allowedType then true
               else validType) types flag
  = flag || existsb (String.eqb (ParamType p)) types.
Proof.
  revert flag. induction types as [|t types IH]; intros flag; simpl.
  - now rewrite orb_false_r.
  - rewrite IH. destruct (String.eqb (ParamType p) t); simpl.
    + now rewrite orb_true_r.
    + reflexivity.
Qed.

(** The body of the loop of [validateParameterTypes] passes a parameter
    exactly when its type is recognized and its default agrees. *)
Lemma parameter_passes (p : ParamSpec) :
  validateParameterTypes [p] = None
  <-> hasValidType p && defaultMatches p = true.
Proof.
  unfold validateParameterTypes. cbn [forRange].
  rewrite validType_flag. cbn [orb]. fold (hasValidType p).
  unfold defaultMatches.
  destruct (hasValidType p); simpl; [|split; discriminate].
  destruct (Default p) as [d|]; [|tauto].
  destruct (String.eqb (ValueType d) (ParamType p)); simpl;
    [tauto|split; discriminate].
Qed.

Lemma validateParameterTypes_cons (p : ParamSpec) (params : list ParamSpec) :
  validateParameterTypes (p :: params) =
  match validateParameterTypes [p] with
  | Some err => Some err
  | None => validateParameterTypes params
  end.
Proof.
  unfold validateParameterTypes. rewrite !forRange_each. simpl.
  now rewrite check_none.
Qed.

(** X17.  [validateParameterTypes] accepts a list of parameters exactly
    when every parameter has one of the recognized types (string, array)
    and every default value that is given has the type its parameter
    declares. *)
Theorem parameter_types_accepted_iff (params : list ParamSpec) :
  validateParameterTypes params = None <->
  forallb (fun p => hasValidType p && defaultMatches p) params = true.
Proof.
  induction params as [|p params IH]; [now split|].
  rewrite validateParameterTypes_cons. cbn [forallb].
  rewrite andb_true_iff, <- IH, <- parameter_passes.
  destruct (validateParameterTypes [p]); [|tauto].
  split; [discriminate|]. intros [? _]. discriminate.
Qed.

(** X18.  The error of [validateParameterTypes] is about the first
    parameter that fails: after parameters that pass, a parameter whose
    type is not recognized is reported as an invalid value under the path
    [taskspec.params.<name>.type], whatever comes after it and whether or
    not it has a default. *)
Theorem first_bad_parameter_type_reported (pre : list ParamSpec)
  (p : ParamSpec) (post : list ParamSpec) :
  forallb (fun q => hasValidType q && defaultMatches q) pre = true ->
  hasValidType p = false ->
  validateParameterTypes (pre ++ p :: post)
  = Some (ErrInvalidValue (ParamType p)
            ("taskspec.params." +:+ ParamName p +:+ ".type")).
Proof.
  intros Hpre Hp. induction pre as [|q pre IH]; simpl.
  - rewrite validateParameterTypes_cons.
    unfold validateParameterTypes at 1. cbn [forRange].
    rewrite validType_flag. cbn [orb]. fold (hasValidType p).
    now rewrite Hp.
  - simpl in Hpre. apply andb_true_iff in Hpre as [Hq Hpre].
    rewrite validateParameterTypes_cons.
    apply parameter_passes in Hq. rewrite Hq. now apply IH.
Qed.

(** ** The analyzer, for any substitution package *)

Section AnyAnalyzer.

Context `{Substitution}.

Lemma stepFields_container (s s' : Step) :
  StepContainer s = StepContainer s' -> stepFields s = stepFields s'.
Proof. intros E. unfold stepFields. now rewrite E. Qed.

Lemma walk_containers (steps steps' : list Step) :
  map StepContainer steps = map StepContainer steps' ->
  walk steps = walk steps'.
Proof.
  revert steps'. induction steps as [|s steps IH]; intros [|s' steps'];
    cbn [map]; try discriminate; [reflexivity|].
  intros [= Es Erest]. unfold walk in *. cbn [flat_map].
  now rewrite (stepFields_container s s' Es), (IH steps' Erest).
Qed.

Lemma analyzer_by_walk (steps steps' : list Step)
  (params params' : list ParamSpec) :
  walk steps = walk steps' ->
  collectParameterNames params = collectParameterNames params' ->
  collectArrayParameterNames params = collectArrayParameterNames params' ->
  validateParameterVariables steps params
  = validateParameterVariables steps' params'.
Proof.
  intros Ew En Ea. unfold validateParameterVariables.
  rewrite !validateVariables_walk, !validateArrayUsage_walk.
  now rewrite Ew, En, Ea.
Qed.

(** X19.  The analyzer never reads a script: two lists of steps with the
    same containers, whatever their scripts are, get the same verdict and
    the same error. *)
Theorem analyzer_ignores_scripts (steps steps' : list Step)
  (params : list ParamSpec) :
  map StepContainer steps = map StepContainer steps' ->
  validateParameterVariables steps params
  = validateParameterVariables steps' params.
Proof.
  intros E. apply analyzer_by_walk; [|reflexivity|reflexivity].
  now apply walk_containers.
Qed.

(** X20.  The analyzer accepts the concatenation of two lists of steps
    exactly when it accepts each of them: no check looks across steps. *)
Theorem analyzer_accepts_append (steps1 steps2 : list Step)
  (params : list ParamSpec) :
  validateParameterVariables (steps1 ++ steps2) params = None <->
  validateParameterVariables steps1 params = None
  /\ validateParameterVariables steps2 params = None.
Proof.
  unfold validateParameterVariables.
  rewrite !validateVariables_walk, !validateArrayUsage_walk.
  unfold walk. rewrite flat_map_app, !firstError_app.
  destruct (firstError (undeclaredIn (collectParameterNames params))
                       (flat_map stepFields steps1));
    [split; [discriminate|intros [? _]; discriminate]|].
  destruct (firstError (undeclaredIn (collectParameterNames params))
                       (flat_map stepFields steps2));
    [split; [discriminate|intros [_ ?]; discriminate]|].
  destruct (firstError (arrayMisuseIn (collectArrayParameterNames params))
                       (flat_map stepFields steps1));
    [split; [discriminate|intros [? _]; discriminate]|].
  tauto.
Qed.

(** X21.  Only the set of declared names and the set of names declared
    with array type matter to the analyzer: two parameter lists with the
    same declarations, in any order and with any repetition, give the same
    verdict and the same error. *)
Theorem analyzer_ignores_parameter_order (steps : list Step)
  (params params' : list ParamSpec) :
  (forall p, In p params <-> In p params') ->
  validateParameterVariables steps params
  = validateParameterVariables steps params'.
Proof.
  intros Hsame. apply analyzer_by_walk; [reflexivity| |].
  - apply set_eq. intros x. rewrite !elem_of_collectParameterNames.
    split; intros (prm & Hin & E); exists prm; (split; [|exact E]);
      now apply Hsame.
  - apply set_eq. intros x. rewrite !elem_of_collectArrayParameterNames.
    unfold declaredArray.
    split; intros (prm & Hin & E); exists prm; (split; [|exact E]);
      now apply Hsame.
Qed.

End AnyAnalyzer.

(** ** The validator as a whole *)

Section AnyValidator.

Context {TaskResources : Type} `{Substitution} `{Collaborators TaskResources}.

Lemma validateStepNames_none (steps : list Step) :
  validateStepNames steps = None <->
  forall s : Step, In s steps ->
                   isEmptyString (Name s)
                   || negb (nonEmpty (IsDNS1123Label (Name s))) = true.
Proof.
  unfold validateStepNames. rewrite forRange_each, firstError_none_iff.
  split; intros Hall s Hin; specialize (Hall s Hin).
  - destruct (isEmptyString (Name s)); [reflexivity|]. simpl in *.
    now destruct (nonEmpty (IsDNS1123Label (Name s))).
  - destruct (isEmptyString (Name s)); [reflexivity|]. simpl in *.
    now destruct (nonEmpty (IsDNS1123Label (Name s))).
Qed.

Lemma stepName_passes (s : Step) :
  isEmptyString (Name s) || negb (nonEmpty (IsDNS1123Label (Name s))) = true
  <-> Name s = "" \/ IsDNS1123Label (Name s) = [].
Proof.
  unfold isEmptyString.
  destruct (String.eqb_spec (Name s) "") as [E|NE]; simpl.
  - split; [now left|reflexivity].
  - rewrite negb_true_iff, nonEmpty_false. split; [now right|].
    now intros [?|?].
Qed.

Lemma validateParameterTypes_none (params : list ParamSpec) :
  validateParameterTypes params = None <->
  forall p, In p params -> hasValidType p && defaultMatches p = true.
Proof.
  induction params as [|p params IH]; [now split|].
  rewrite validateParameterTypes_cons.
  destruct (validateParameterTypes [p]) eqn:Hp.
  - split; [discriminate|]. intros Hall.
    assert (validateParameterTypes [p] = None) as Hnone; [|congruence].
    apply parameter_passes, Hall. now left.
  - apply parameter_passes in Hp. rewrite IH. split.
    + intros Hall q [<-|Hin]; [exact Hp|now apply Hall].
    + intros Hall q Hin. apply Hall. now right.
Qed.

(** X22.  The loop over the step names accepts exactly the step lists in
    which every step either has no name or has a name the label check has
    no complaint about; a step without a name is never a problem. *)
Theorem step_names_accepted_iff (steps : list Step) :
  validateStepNames steps = None <->
  forall s : Step, In s steps ->
                   Name s = "" \/ IsDNS1123Label (Name s) = [].
Proof.
  rewrite validateStepNames_none.
  split; intros Hall s Hin; now apply stepName_passes, Hall.
Qed.

(** X23.  A specification without steps is always rejected, with a
    missing-field error: on the specification itself when it is entirely
    empty, on [steps] otherwise.  Nothing else is looked at. *)
Theorem no_steps_rejected (ts : TaskSpec TaskResources) :
  Steps ts = [] ->
  Validate ts
  = Some (ErrMissingField
            (if isZeroTaskSpec ts then CurrentField else "steps")).
Proof.
  intros Hs. unfold Validate. rewrite Hs.
  now destruct (isZeroTaskSpec ts).
Qed.

Lemma ValidateVolumes_path (vols : gset string) (volumes : list Volume)
  (err : FieldError) :
  validateVolumesFrom vols volumes = Some err -> Paths err = ["name"].
Proof.
  revert vols. induction volumes as [|v volumes IH]; intros vols; simpl;
    [discriminate|].
  destruct (inSet (VolumeName v) vols); [|apply IH].
  now intros [= <-].
Qed.

(** X24.  Repeated volume names are reported before anything about the
    steps, the parameters or the template is checked: a specification with
    at least one step and two volumes of the same name is rejected with
    the path [volumes.name], whatever the rest of it is. *)
Theorem repeated_volume_reported_first (ts : TaskSpec TaskResources) :
  Steps ts <> [] ->
  ~ List.NoDup (map VolumeName (Volumes ts)) ->
  exists err, Validate ts = Some err /\ Paths err = ["volumes.name"].
Proof.
  intros Hs Hdup. unfold Validate.
  destruct (isZeroTaskSpec ts) eqn:Hz.
  { apply isZeroTaskSpec_steps in Hz. contradiction. }
  destruct (Steps ts) as [|s steps] eqn:Es; [contradiction|].
  cbn [length Nat.eqb].
  destruct (ValidateVolumes (Volumes ts)) as [err|] eqn:Hv.
  - apply ValidateVolumes_path in Hv. simpl. eexists. split; [reflexivity|].
    simpl. now rewrite Hv.
  - exfalso. apply Hdup. unfold ValidateVolumes in Hv.
    now apply validateVolumesFrom_none in Hv.
Qed.

Lemma steps_via_none (merged : list Step) :
  ViaField (validateSteps merged) "steps" = None <->
  forallb stepWellFormed merged = true /\ List.NoDup (stepNames merged).
Proof.
  rewrite ViaField_none. unfold validateSteps.
  rewrite validateStepsFrom_none. split; [tauto|].
  intros [Hwf Hnd]. split; [exact Hwf|]. split; [exact Hnd|].
  intros n _. apply not_elem_of_empty.
Qed.

Lemma volumes_via_none (volumes : list Volume) :
  ViaField (ValidateVolumes volumes) "volumes" = None <->
  List.NoDup (map VolumeName volumes).
Proof.
  rewrite ViaField_none. unfold ValidateVolumes.
  rewrite validateVolumesFrom_none. split; [tauto|].
  intros Hnd. split; [exact Hnd|]. intros v _. apply not_elem_of_empty.
Qed.

(** X25.  [TaskSpec.Validate] accepts a specification exactly when it has
    at least one step, its volume names are distinct, the resources
    validate, every parameter is well typed, and the step template merges
    into the steps in such a way that the merged steps are well formed with
    distinct names and that, in the steps the merge leaves in [ts.Steps],
    every name passes the label check and the variable usage analysis
    finds nothing. *)
Theorem validate_accepts_iff (ts : TaskSpec TaskResources) :
  Validate ts = None <->
  Steps ts <> []
  /\ List.NoDup (map VolumeName (Volumes ts))
  /\ ResourcesValidate (Resources ts) = None
  /\ forallb (fun p => hasValidType p && defaultMatches p) (Params ts) = true
  /\ exists mergedSteps tsSteps,
      MergeStepsWithStepTemplate (StepTemplate ts) (Steps ts)
      = (inl mergedSteps, tsSteps)
      /\ forallb stepWellFormed mergedSteps = true
      /\ List.NoDup (stepNames mergedSteps)
      /\ (forall s : Step, In s tsSteps ->
                           Name s = "" \/ IsDNS1123Label (Name s) = [])
      /\ validateParameterVariables tsSteps (Params ts) = None.
Proof.
  pose proof steps_via_none as Hsteps.
  pose proof volumes_via_none as Hvols.
  unfold Validate.
  destruct (isZeroTaskSpec ts) eqn:Hz.
  { apply isZeroTaskSpec_steps in Hz. split; [discriminate|].
    intros [Hs _]. contradiction. }
  destruct (Steps ts) as [|s steps] eqn:Es.
  { simpl. split; [discriminate|]. intros [Hs _]. contradiction. }
  cbn [length Nat.eqb]. rewrite <- Es.
  destruct (ViaField (ValidateVolumes (Volumes ts)) "volumes") eqn:Hv.
  { split; [discriminate|]. intros (_ & Hnd & _).
    apply Hvols in Hnd. congruence. }
  apply Hvols in Hv.
  destruct (MergeStepsWithStepTemplate (StepTemplate ts) (Steps ts))
    as [[merged|merr] after].
  2:{ split; [discriminate|].
      intros (_ & _ & _ & _ & m & a & E & _). discriminate. }
  destruct (ViaField (validateSteps merged) "steps") eqn:Hm.
  { split; [discriminate|].
    intros (_ & _ & _ & _ & m & a & [= <- <-] & Hwf & Hnd & _).
    assert (ViaField (validateSteps merged) "steps" = None) as Hnone
        by now apply Hsteps.
    congruence. }
  apply Hsteps in Hm.
  destruct (ResourcesValidate (Resources ts)) eqn:Hr.
  { split; [discriminate|]. intros (_ & _ & ? & _). discriminate. }
  destruct (validateParameterTypes (Params ts)) eqn:Hp.
  { split; [discriminate|]. intros (_ & _ & _ & Hty & _).
    rewrite forallb_forall in Hty.
    apply validateParameterTypes_none in Hty. congruence. }
  rewrite validateParameterTypes_none, <- forallb_forall in Hp.
  destruct (validateStepNames after) eqn:Hn.
  { split; [discriminate|].
    intros (_ & _ & _ & _ & m & a & [= <- <-] & _ & _ & Hnames & _).
    assert (validateStepNames after = None) as Hnone; [|congruence].
    apply validateStepNames_none. intros st Hin.
    now apply stepName_passes, Hnames. }
  assert (forall st : Step, In st after ->
            Name st = "" \/ IsDNS1123Label (Name st) = []) as Hnames.
  { intros st Hin. apply stepName_passes.
    now apply (proj1 (validateStepNames_none _) Hn). }
  rewrite check_none. split.
  - intros Ha. split; [rewrite Es; discriminate|].
    split; [exact Hv|]. split; [reflexivity|]. split; [exact Hp|].
    exists merged, after. split; [reflexivity|].
    split; [exact (proj1 Hm)|]. split; [exact (proj2 Hm)|].
    split; [exact Hnames|exact Ha].
  - intros (_ & _ & _ & _ & m & a & [= <- <-] & _ & _ & _ & Ha). exact Ha.
Qed.

End AnyValidator.

(** ** The statements at work *)

(** The third volume repeats the first: it is the one reported, the
    fourth is not reached. *)
Lemma first_repeated_volume_reported_witness :
  ValidateVolumes ([mkVolume "cache"; mkVolume "data"]
                   ++ mkVolume "cache" :: [mkVolume "data"])
  = Some (duplicateVolume "cache").
Proof.
  apply (first_repeated_volume_reported
           [mkVolume "cache"; mkVolume "data"] (mkVolume "cache")
           [mkVolume "data"]).
  - simpl. repeat constructor; simpl; intuition discriminate.
  - simpl. now left.
Defined.

(** A script whose shebang comes after a line feed, a no-break space
    (U+00A0), a space and an em space (U+2003). *)
Lemma script_with_shebang_accepted_witness :
  validateSteps
    [scriptStep "busybox"
                (bytes [10; 194; 160; 32; 226; 128; 131]%nat
                 +:+ "#!" +:+ "/bin/sh echo done")]
  = None.
Proof.
  apply (script_with_shebang_accepted
           (scriptStep "busybox"
              (bytes [10; 194; 160; 32; 226; 128; 131]%nat
               +:+ "#!" +:+ "/bin/sh echo done"))
           (bytes [10; 194; 160; 32; 226; 128; 131]%nat)
           "/bin/sh echo done").
  - simpl. discriminate.
  - reflexivity.
  - reflexivity.
  - reflexivity.
  - exists [bytes [10]%nat; bytes [194; 160]%nat; bytes [32]%nat;
            bytes [226; 128; 131]%nat].
    split; [|reflexivity].
    repeat constructor; vm_compute; tauto.
Defined.

(** A parameter of type [number] after a well-typed one; its default,
    which disagrees with the type as well, is not what is reported. *)
Lemma first_bad_parameter_type_reported_witness :
  validateParameterTypes
    ([stringParam "greeting"]
     ++ {| ParamName := "count"; ParamType := "number";
           Default := Some (mkArrayOrString ParamTypeString "3" []) |}
        :: [listParam])
  = Some (ErrInvalidValue "number" "taskspec.params.count.type").
Proof.
  apply (first_bad_parameter_type_reported
           [stringParam "greeting"]
           {| ParamName := "count"; ParamType := "number";
              Default := Some (mkArrayOrString ParamTypeString "3" []) |}
           [listParam]).
  - reflexivity.
  - reflexivity.
Defined.

(** The same container, once with a script that mentions an undeclared
    parameter and once without a script. *)
Lemma analyzer_ignores_scripts_witness :
  validateParameterVariables (H := specSubstitution)
    [scriptStep "busybox" "#!/bin/sh echo $(params.missing)"] []
  = validateParameterVariables (H := specSubstitution)
      [scriptStep "busybox" ""] [].
Proof.
  apply (analyzer_ignores_scripts (H := specSubstitution)).
  reflexivity.
Defined.

(** The declarations in the other order, one of them twice. *)
Lemma analyzer_ignores_parameter_order_witness :
  validateParameterVariables (H := specSubstitution)
    [stepWithArgs ["$(params.list)"; "$(params.greeting)"]]
    [listParam; stringParam "greeting"]
  = validateParameterVariables (H := specSubstitution)
      [stepWithArgs ["$(params.list)"; "$(params.greeting)"]]
      [stringParam "greeting"; listParam; stringParam "greeting"].
Proof.
  apply (analyzer_ignores_parameter_order (H := specSubstitution)).
  intros p. simpl. tauto.
Defined.

(** Volumes and parameters, but no step: the error is on [steps]. *)
Lemma no_steps_rejected_witness :
  @Validate unit specSubstitution plainCollaborators
    {| Resources := None; Params := [listParam]; Steps := [];
       Volumes := [mkVolume "cache"]; StepTemplate := None |}
  = Some (ErrMissingField "steps").
Proof.
  apply (@no_steps_rejected unit specSubstitution plainCollaborators
           {| Resources := None; Params := [listParam]; Steps := [];
              Volumes := [mkVolume "cache"]; StepTemplate := None |}).
  reflexivity.
Defined.

(** Two volumes of the same name in a task that is otherwise fine. *)
Lemma repeated_volume_reported_first_witness :
  exists err,
    @Validate unit specSubstitution plainCollaborators
      (taskWithVolumes [mkVolume "cache"; mkVolume "cache"]) = Some err
    /\ Paths err = ["volumes.name"].
Proof.
  apply (@repeated_volume_reported_first unit specSubstitution
           plainCollaborators
           (taskWithVolumes [mkVolume "cache"; mkVolume "cache"])).
  - simpl. discriminate.
  - simpl. intros Hnd. apply List.NoDup_cons_iff in Hnd as [Hnot _].
    apply Hnot. now left.
Defined.

End ValidationMore.
